(** * Dashboard client: a shallow embedding of [clients/dashboard/client.go]

    The Go client talks to a remote dashboard over HTTP, rewrites the
    definition it is handed through a pointer, and prints progress lines.
    All three effects are kept: a run is a function on a [State] holding the
    heap of [APIDefinition] cells, the remote service and the trace of
    requests and printed lines.  A Go panic (nil dereference, index out of
    range) is the [None] outcome of the monad. *)

From Stdlib Require Import Ascii String.
From stdpp Require Import gmap strings list fin_maps.

Local Open Scope string_scope.
Local Open Scope list_scope.

(** ** Identifiers *)

(** [bson.ObjectId] is a Go string type; [Hex] prints each byte as two
    lower-case hexadecimal digits ([hex.EncodeToString]). *)
Definition ObjectId := string.

Definition hexDigit (n : N) : ascii :=
  match n with
  | 0%N => "0" | 1%N => "1" | 2%N => "2" | 3%N => "3"
  | 4%N => "4" | 5%N => "5" | 6%N => "6" | 7%N => "7"
  | 8%N => "8" | 9%N => "9" | 10%N => "a" | 11%N => "b"
  | 12%N => "c" | 13%N => "d" | 14%N => "e" | _ => "f"
  end%char.

Fixpoint Hex (id : ObjectId) : string :=
  match id with
  | EmptyString => EmptyString
  | String b rest =>
      String (hexDigit (N_of_ascii b / 16))
        (String (hexDigit (N_of_ascii b mod 16)) (Hex rest))
  end.

(** The inverse of [hexDigit] on its range, used to show that [Hex] loses
    nothing. *)
Definition unhexDigit (a : ascii) : N :=
  let n := N_of_ascii a in
  if (n <? 58)%N then (n - 48)%N else (n - 87)%N.

Fixpoint unHex (s : string) : ObjectId :=
  match s with
  | String hi (String lo rest) =>
      String (ascii_of_N (unhexDigit hi * 16 + unhexDigit lo)) (unHex rest)
  | _ => EmptyString
  end.

(** ** Records *)

(** [apidef.APIDefinition] comes from the gateway's package; the client reads
    the five fields below and copies the rest untouched. *)
Record ProxyConfig := { ListenPath : string }.

Record APIDefinition := {
  Id : ObjectId;
  Name : string;
  Slug : string;
  APIID : string;
  Proxy : ProxyConfig
}.

Definition setAPIID (def : APIDefinition) (v : string) : APIDefinition :=
  {| Id := Id def; Name := Name def; Slug := Slug def; APIID := v;
     Proxy := Proxy def |}.

(** An [interface{}] element of the hook references; the client never looks
    inside one. *)
Definition HookReference := string.

(** A Go slice field is [None] when nil and [Some l] otherwise, so that the
    nil slice and the empty slice stay apart. *)
Record DBApiDefinition := {
  APIDef : APIDefinition;
  HookReferences : option (list HookReference);
  IsSite : bool;
  SortBy : Z
}.

Record APIResponse := { Message : string; Meta : string; Status : string }.

Record APISResponse := { Apis : list DBApiDefinition; Pages : Z }.

Record Client := { url : string; secret : string }.

Definition endpointAPIs : string := "/api/apis".

Global Instance ProxyConfig_eq_dec : EqDecision ProxyConfig.
Proof. solve_decision. Defined.
Global Instance APIDefinition_eq_dec : EqDecision APIDefinition.
Proof. solve_decision. Defined.
Global Instance DBApiDefinition_eq_dec : EqDecision DBApiDefinition.
Proof. solve_decision. Defined.

(** ** Errors *)

(** A [%v] argument of [fmt.Errorf] or [fmt.Printf]. *)
Inductive FmtArg :=
| ArgString (s : string)
| ArgInt (n : Z).

(** The two sentinel errors of the package, the errors built by
    [fmt.Errorf], and the errors handed up from the HTTP and JSON layers. *)
Inductive error :=
| UseUpdateError
| UseCreateError
| Errorf (format : string) (args : list FmtArg)
| ExternalError (msg : string).

Global Instance FmtArg_eq_dec : EqDecision FmtArg.
Proof. solve_decision. Defined.
Global Instance error_eq_dec : EqDecision error.
Proof. solve_decision. Defined.

(** ** HTTP *)

Inductive Method := GET | POST | PUT | DELETE.

Record RequestOptions := {
  Params : list (string * string);
  Headers : list (string * string);
  JSON : option DBApiDefinition
}.

Record Request := { method : Method; target : string; options : RequestOptions }.

Record Response := { StatusCode : Z; Body : string }.

Global Instance Method_eq_dec : EqDecision Method.
Proof. solve_decision. Defined.

(** What a run leaves behind, in order. *)
Inductive Event :=
| Sent (req : Request)
| Printed (format : string) (args : list FmtArg).

Definition loc := nat.

Definition fixDBDef (def : DBApiDefinition) : DBApiDefinition :=
  match HookReferences def with
  | None =>
      {| APIDef := APIDef def; HookReferences := Some [];
         IsSite := IsSite def; SortBy := SortBy def |}
  | Some _ => def
  end.

(** The composite literal [DBApiDefinition{APIDefinition: *def}]: every
    other field takes its zero value. *)
Definition asDBDefOf (def : APIDefinition) : DBApiDefinition :=
  {| APIDef := def; HookReferences := None; IsSite := false; SortBy := 0 |}.

(** The request options the client builds. *)
Definition listOptions (c : Client) : RequestOptions :=
  {| Params := [("p", "-2")]; Headers := [("Authorization", secret c)];
     JSON := None |}.

Definition jsonOptions (c : Client) (body : DBApiDefinition) : RequestOptions :=
  {| Params := []; Headers := [("Authorization", secret c)];
     JSON := Some body |}.

Definition plainOptions (c : Client) : RequestOptions :=
  {| Params := []; Headers := [("Authorization", secret c)]; JSON := None |}.

(** The uniqueness scan of [CreateAPI], test by test as the loop has them;
    the fourth test compares the record's listen path with itself. *)
Fixpoint createScan (apis : list DBApiDefinition) (def : APIDefinition)
  : option error :=
  match apis with
  | [] => None
  | api :: rest =>
      if decide (APIID (APIDef api) = APIID def) then Some UseUpdateError
      else if decide (Id (APIDef api) = Id def) then Some UseUpdateError
      else if decide (Slug (APIDef api) = Slug def) then Some UseUpdateError
      else if decide (ListenPath (Proxy (APIDef api))
                      = ListenPath (Proxy (APIDef api)))
      then Some UseUpdateError
      else createScan rest def
  end.

(** ** The reconciliation plan of [Sync] *)

(** [for i, x := range xs { m[key(x)] = i }], started at index [i]. *)
Fixpoint buildIDMap {A} (key : A → string) (xs : list A) (i : nat)
    (m : gmap string nat) : gmap string nat :=
  match xs with
  | [] => m
  | x :: rest => buildIDMap key rest (S i) (<[key x := i]> m)
  end.

Definition DashIDMap (apis : list DBApiDefinition) : gmap string nat :=
  buildIDMap (λ api, Hex (Id (APIDef api))) apis 0 ∅.

Definition GitIDMap (apiDefs : list APIDefinition) : gmap string nat :=
  buildIDMap (λ def, Hex (Id def)) apiDefs 0 ∅.

(** Go leaves the order of a [range] over a map open.  Each of the three
    loops of [Sync] gets its own order, any enumeration of the map's
    entries. *)
Record RangeOrder := {
  range : gmap string nat → list (string * nat);
  range_perm : ∀ m, range m ≡ₚ map_to_list m
}.

Definition rangeSorted : RangeOrder :=
  {| range := map_to_list; range_perm := λ m, reflexivity _ |}.

(** [for key, index := range m { if keep(key) { acc = append(acc,
    apiDefs[index]) } }]; an index out of range panics. *)
Fixpoint selectDefs (apiDefs : list APIDefinition) (keep : string → bool)
    (entries : list (string * nat)) (acc : list APIDefinition)
  : option (list APIDefinition) :=
  match entries with
  | [] => Some acc
  | (key, index) :: rest =>
      if keep key then
        match apiDefs !! index with
        | Some def => selectDefs apiDefs keep rest (acc ++ [def])
        | None => None
        end
      else selectDefs apiDefs keep rest acc
  end.

Fixpoint selectKeys (keep : string → bool) (entries : list (string * nat))
    (acc : list string) : list string :=
  match entries with
  | [] => acc
  | (key, _) :: rest =>
      if keep key then selectKeys keep rest (acc ++ [key])
      else selectKeys keep rest acc
  end.

Definition present (m : gmap string nat) (key : string) : bool :=
  match m !! key with Some _ => true | None => false end.

Record Plan := {
  deleteAPIs : list string;
  updateAPIs : list APIDefinition;
  createAPIs : list APIDefinition
}.

Definition plan (ou od oc : RangeOrder) (apis : list DBApiDefinition)
    (apiDefs : list APIDefinition) : option Plan :=
  let dash := DashIDMap apis in
  let git := GitIDMap apiDefs in
  match selectDefs apiDefs (present dash) (range ou git) [] with
  | None => None
  | Some upd =>
      let del := selectKeys (λ key, negb (present git key)) (range od dash) [] in
      match selectDefs apiDefs (λ key, negb (present dash key))
              (range oc git) [] with
      | None => None
      | Some cre =>
          Some {| deleteAPIs := del; updateAPIs := upd; createAPIs := cre |}
      end
  end.

(** ** The effectful client *)

(** The collaborators the client is linked against: the remote service
    behind [grequests] (a transport failure is [inl]), the two JSON decoders
    behind [resp.JSON], and [urljoin.Join]. *)
Class Collaborators := {
  Server : Type;
  serve : Request → Server → (string + Response) * Server;
  decodeAPIS : string → string + APISResponse;
  decodeStatus : string → string + APIResponse;
  urljoin : list string → string
}.

Section Dashboard.

Context `{Collaborators}.

Record State := {
  heap : gmap loc APIDefinition;
  remote : Server;
  trace : list Event
}.

(** [None] is a panic. *)
Definition M (A : Type) : Type := State → option (A * State).

Definition ret {A} (a : A) : M A := λ s, Some (a, s).

Definition bind {A B} (m : M A) (k : A → M B) : M B :=
  λ s, match m s with
       | Some (a, s') => k a s'
       | None => None
       end.

Notation "'let*' x ':=' m 'in' k" := (bind m (λ x, k))
  (at level 10, x pattern, m at level 100, k at level 200).

(** *** Primitive effects *)

Definition emit (e : Event) : M unit :=
  λ s, Some (tt, {| heap := heap s; remote := remote s;
                    trace := trace s ++ [e] |}).

Definition Printf (format : string) (args : list FmtArg) : M unit :=
  emit (Printed format args).

Definition send (req : Request) : M (string + Response) :=
  λ s, let (r, srv) := serve req (remote s) in
       Some (r, {| heap := heap s; remote := srv;
                   trace := trace s ++ [Sent req] |}).

(** [*p] *)
Definition load (p : loc) : M APIDefinition :=
  λ s, match heap s !! p with
       | Some def => Some (def, s)
       | None => None
       end.

(** [*p = def] *)
Definition store (p : loc) (def : APIDefinition) : M unit :=
  λ s, match heap s !! p with
       | Some _ => Some (tt, {| heap := <[p := def]> (heap s);
                                remote := remote s; trace := trace s |})
       | None => None
       end.

(** A variable whose address is taken: a new cell holding [def]. *)
Definition new (def : APIDefinition) : M loc :=
  λ s, let p := fresh (dom (heap s)) in
       Some (p, {| heap := <[p := def]> (heap s);
                   remote := remote s; trace := trace s |}).

(** *** Fetching the listing

    [CreateAPI], [UpdateAPI] and [Sync] open with the same lines: a GET
    with [p=-2], the status test, the decoding of the listing. *)
Definition fetchAPIs (c : Client) : M (error + APISResponse) :=
  let fullPath := urljoin [url c; endpointAPIs] in
  let* r := send {| method := GET; target := fullPath;
                    options := listOptions c |} in
  match r with
  | inl err => ret (inl (ExternalError err))
  | inr resp =>
      if decide (StatusCode resp ≠ 200%Z) then
        ret (inl (Errorf "API Returned error: %v" [ArgString (Body resp)]))
      else
        match decodeAPIS (Body resp) with
        | inl err => ret (inl (ExternalError err))
        | inr apis => ret (inr apis)
        end
  end.

(** *** CreateAPI *)

Definition CreateAPI (c : Client) (def : loc) : M (string * option error) :=
  let fullPath := urljoin [url c; endpointAPIs] in
  let* fetched := fetchAPIs c in
  match fetched with
  | inl err => ret (EmptyString, Some err)
  | inr apis =>
      let* d := load def in
      match createScan (Apis apis) d with
      | Some err => ret (EmptyString, Some err)
      | None =>
          let asDBDef := fixDBDef (asDBDefOf d) in
          let* r := send {| method := POST; target := fullPath;
                            options := jsonOptions c asDBDef |} in
          match r with
          | inl err => ret (EmptyString, Some (ExternalError err))
          | inr createResp =>
              if decide (StatusCode createResp ≠ 200%Z) then
                ret (EmptyString,
                     Some (Errorf "API Returned error: %v (code: %v)"
                             [ArgString (Body createResp);
                              ArgInt (StatusCode createResp)]))
              else
                match decodeStatus (Body createResp) with
                | inl err => ret (EmptyString, Some (ExternalError err))
                | inr status =>
                    if decide (Status status ≠ "OK") then
                      ret (EmptyString,
                           Some (Errorf
                                   "API request completed, but with error: %v"
                                   [ArgString (Message status)]))
                    else ret (Meta status, None)
                end
          end
      end
  end.

(** *** UpdateAPI *)

(** The identity scan: the first record with the definition's [Id] ends
    the loop, after the backfill of an empty [APIID] through the
    pointer. *)
Fixpoint updateScan (apis : list DBApiDefinition) (def : loc) : M bool :=
  match apis with
  | [] => ret false
  | api :: rest =>
      let* d := load def in
      if decide (Id (APIDef api) = Id d) then
        let* _ := (if decide (APIID d = EmptyString)
                   then store def (setAPIID d (APIID (APIDef api)))
                   else ret tt) in
        ret true
      else updateScan rest def
  end.

Definition UpdateAPI (c : Client) (def : loc) : M (option error) :=
  let* fetched := fetchAPIs c in
  match fetched with
  | inl err => ret (Some err)
  | inr apis =>
      let* found := updateScan (Apis apis) def in
      if negb found then ret (Some UseCreateError)
      else
        let* d := load def in
        let asDBDef := fixDBDef (asDBDefOf d) in
        let updatePath := urljoin [url c; endpointAPIs; Hex (Id d)] in
        let* r := send {| method := PUT; target := updatePath;
                          options := jsonOptions c asDBDef |} in
        match r with
        | inl err => ret (Some (ExternalError err))
        | inr updateResp =>
            if decide (StatusCode updateResp ≠ 200%Z) then
              ret (Some (Errorf "API Returned error: %v"
                           [ArgString (Body updateResp)]))
            else
              match decodeStatus (Body updateResp) with
              | inl err => ret (Some (ExternalError err))
              | inr status =>
                  if decide (Status status ≠ "OK") then
                    ret (Some (Errorf
                                 "API request completed, but with error: %v"
                                 [ArgString (Message status)]))
                  else ret None
              end
        end
  end.

(** *** deleteAPI *)

Definition deleteAPI (c : Client) (id : string) : M (option error) :=
  let delPath := urljoin [url c; endpointAPIs; id] in
  let* r := send {| method := DELETE; target := delPath;
                    options := plainOptions c |} in
  match r with
  | inl err => ret (Some (ExternalError err))
  | inr delResp =>
      if decide (StatusCode delResp ≠ 200%Z) then
        ret (Some (Errorf "API Returned error: %v"
                     [ArgString (Body delResp)]))
      else ret None
  end.

(** *** Sync *)

(** Reading the caller's slice, element by element. *)
Fixpoint loadAll (ps : list loc) : M (list APIDefinition) :=
  match ps with
  | [] => ret []
  | p :: rest =>
      let* d := load p in
      let* ds := loadAll rest in
      ret (d :: ds)
  end.

Fixpoint doDeletes (c : Client) (ids : list string) : M (option error) :=
  match ids with
  | [] => ret None
  | dbId :: rest =>
      let* _ := Printf "SYNC Deleting: %v\n" [ArgString dbId] in
      let* err := deleteAPI c dbId in
      match err with
      | Some e => ret (Some e)
      | None => doDeletes c rest
      end
  end.

(** The loop variable [api] has its address taken: it is a cell of its
    own, filled with a copy of the element at each pass (a fresh cell per
    pass here; one cell overwritten at each pass gives the same runs, the
    pointer does not outlive the pass). *)
Fixpoint doUpdates (c : Client) (defs : list APIDefinition)
  : M (option error) :=
  match defs with
  | [] => ret None
  | elem :: rest =>
      let* api := new elem in
      let* d := load api in
      let* _ := Printf "SYNC Updating: %v\n" [ArgString (Hex (Id d))] in
      let* err := UpdateAPI c api in
      match err with
      | Some e => ret (Some e)
      | None => doUpdates c rest
      end
  end.

Fixpoint doCreates (c : Client) (defs : list APIDefinition)
  : M (option error) :=
  match defs with
  | [] => ret None
  | elem :: rest =>
      let* api := new elem in
      let* d := load api in
      let* _ := Printf "SYNC Creating: %v\n" [ArgString (Name d)] in
      let* r := CreateAPI c api in
      match r with
      | (_, Some e) => ret (Some e)
      | (id, None) =>
          let* _ := Printf "--> ID: %v\n" [ArgString id] in
          doCreates c rest
      end
  end.

Definition applyPlan (c : Client) (p : Plan) : M (option error) :=
  let* err := doDeletes c (deleteAPIs p) in
  match err with
  | Some e => ret (Some e)
  | None =>
      let* err := doUpdates c (updateAPIs p) in
      match err with
      | Some e => ret (Some e)
      | None => doCreates c (createAPIs p)
      end
  end.

Definition Sync (ou od oc : RangeOrder) (c : Client) (apiDefs : list loc)
  : M (option error) :=
  let* fetched := fetchAPIs c in
  match fetched with
  | inl err => ret (Some err)
  | inr apis =>
      let* defs := loadAll apiDefs in
      match plan ou od oc (Apis apis) defs with
      | None => λ _, None
      | Some p => applyPlan c p
      end
  end.

(** *** The apply phase, operation by operation

    One pass of a loop body of [Sync]: the progress line, the call, and for
    a create the line with the new identifier. *)
Inductive Op :=
| OpDelete (dbId : string)
| OpUpdate (elem : APIDefinition)
| OpCreate (elem : APIDefinition).

Definition exec (c : Client) (op : Op) : M (option error) :=
  match op with
  | OpDelete dbId =>
      let* _ := Printf "SYNC Deleting: %v\n" [ArgString dbId] in
      deleteAPI c dbId
  | OpUpdate elem =>
      let* api := new elem in
      let* d := load api in
      let* _ := Printf "SYNC Updating: %v\n" [ArgString (Hex (Id d))] in
      UpdateAPI c api
  | OpCreate elem =>
      let* api := new elem in
      let* d := load api in
      let* _ := Printf "SYNC Creating: %v\n" [ArgString (Name d)] in
      let* r := CreateAPI c api in
      match r with
      | (_, Some e) => ret (Some e)
      | (id, None) =>
          let* _ := Printf "--> ID: %v\n" [ArgString id] in
          ret None
      end
  end.

(** [Runs c s ops r s']: from [s] the operations [ops] are attempted one
    after the other; the first that fails ends the run with its error, in
    the state that operation left, and nothing after it is attempted. *)
Inductive Runs (c : Client) : State → list Op → option error → State → Prop :=
| Runs_done s : Runs c s [] None s
| Runs_next s op s1 ops r s' :
    exec c op s = Some (None, s1) →
    Runs c s1 ops r s' →
    Runs c s (op :: ops) r s'
| Runs_abort s op e s' ops :
    exec c op s = Some (Some e, s') →
    Runs c s (op :: ops) (Some e) s'.

Definition operations (p : Plan) : list Op :=
  (OpDelete <$> deleteAPIs p) ++ (OpUpdate <$> updateAPIs p)
    ++ (OpCreate <$> createAPIs p).

(** The requests the client sends. *)
Definition listRequest (c : Client) : Request :=
  {| method := GET; target := urljoin [url c; endpointAPIs];
     options := listOptions c |}.

Definition createRequest (c : Client) (def : APIDefinition) : Request :=
  {| method := POST; target := urljoin [url c; endpointAPIs];
     options := jsonOptions c (fixDBDef (asDBDefOf def)) |}.

Definition updateRequest (c : Client) (def : APIDefinition) : Request :=
  {| method := PUT; target := urljoin [url c; endpointAPIs; Hex (Id def)];
     options := jsonOptions c (fixDBDef (asDBDefOf def)) |}.

Definition deleteRequest (c : Client) (id : string) : Request :=
  {| method := DELETE; target := urljoin [url c; endpointAPIs; id];
     options := plainOptions c |}.

End Dashboard.

(** The bodies a stretch of trace carries on the wire. *)
Definition payloads (evs : list Event) : list DBApiDefinition :=
  omap (λ ev, match ev with
              | Sent req => JSON (options req)
              | Printed _ _ => None
              end) evs.

(** The requests of a stretch of trace that write to the service. *)
Definition writes (evs : list Event) : list Request :=
  omap (λ ev, match ev with
              | Sent req => if decide (method req = GET) then None else Some req
              | Printed _ _ => None
              end) evs.

(** The first record of a listing carrying a given [Id]: the record the scan
    of [UpdateAPI] stops at. *)
Fixpoint matched (apis : list DBApiDefinition) (id : ObjectId)
  : option DBApiDefinition :=
  match apis with
  | [] => None
  | api :: rest =>
      if decide (Id (APIDef api) = id) then Some api else matched rest id
  end.

(** [last_with_Id apiDefs n def]: [def] sits at index [n] and no later
    entry has its [Id]. *)
Definition last_with_Id (apiDefs : list APIDefinition) (n : nat)
    (def : APIDefinition) : Prop :=
  apiDefs !! n = Some def
  ∧ ∀ n' def', n < n' → apiDefs !! n' = Some def' → Id def' ≠ Id def.

(** The partition as the specification words it, every desired definition
    taking part. *)
Definition partition_as_stated (apis : list DBApiDefinition)
    (apiDefs : list APIDefinition) (p : Plan) : Prop :=
  (∀ def, def ∈ updateAPIs p ↔
          def ∈ apiDefs ∧ ∃ api, api ∈ apis ∧ Id (APIDef api) = Id def)
  ∧ (∀ def, def ∈ createAPIs p ↔
            def ∈ apiDefs ∧ ¬ ∃ api, api ∈ apis ∧ Id (APIDef api) = Id def)
  ∧ (∀ key, key ∈ deleteAPIs p ↔
            (∃ api, api ∈ apis ∧ Hex (Id (APIDef api)) = key)
            ∧ ¬ ∃ def, def ∈ apiDefs ∧ Hex (Id def) = key)
  ∧ (∀ def, ¬ (def ∈ updateAPIs p ∧ def ∈ createAPIs p))
  ∧ (∀ key def, key ∈ deleteAPIs p →
                def ∈ updateAPIs p ∨ def ∈ createAPIs p →
                Hex (Id def) ≠ key).

(** What one pass of a selecting loop of [Sync] appends for an entry. *)
Definition pick (apiDefs : list APIDefinition) (keep : string → bool)
    (e : string * nat) : option APIDefinition :=
  if keep e.1 then apiDefs !! e.2 else None.

Definition pickKey (keep : string → bool) (e : string * nat) : option string :=
  if keep e.1 then Some e.1 else None.

(** What the scan leaves in the definition's cell once it stopped at [api]. *)
Definition backfill (def : APIDefinition) (api : DBApiDefinition)
  : APIDefinition :=
  if decide (APIID def = EmptyString) then setAPIID def (APIID (APIDef api))
  else def.

(** The error a mutating call builds from an envelope that is not OK. *)
Definition envelopeError (status : APIResponse) : error :=
  Errorf "API request completed, but with error: %v"
    [ArgString (Message status)].

Definition dropSlash (part : string) : string :=
  match part with
  | String "/"%char rest => rest
  | _ => part
  end.

(** ** A dashboard to run the client against

    It answers every request with the given status code, hands out the given
    listing and the given envelope, and joins URL parts with slashes. *)
Definition fixedDashboard (code : Z) (listing : list DBApiDefinition)
    (envelope : APIResponse) : Collaborators :=
  {| Server := unit;
     serve := λ _ srv, (inr {| StatusCode := code; Body := "{}" |}, srv);
     decodeAPIS := λ _, inr {| Apis := listing; Pages := 1 |};
     decodeStatus := λ _, inr envelope;
     urljoin := λ parts, String.concat "/" (dropSlash <$> parts) |}.

Definition okEnvelope : APIResponse :=
  {| Message := "API created"; Meta := "5f0c"; Status := "OK" |}.

Definition errorEnvelope : APIResponse :=
  {| Message := "validation failed"; Meta := EmptyString; Status := "Error" |}.

Definition mkDef (id name slug apiid path : string) : APIDefinition :=
  {| Id := id; Name := name; Slug := slug; APIID := apiid;
     Proxy := {| ListenPath := path |} |}.

Definition mkRecord (id name slug apiid path : string) : DBApiDefinition :=
  {| APIDef := mkDef id name slug apiid path; HookReferences := Some [];
     IsSite := false; SortBy := 0 |}.

Definition client0 : Client :=
  {| url := "http://dash"; secret := "s3cret" |}.

Definition start `{Collaborators} (srv : Server)
    (cells : list APIDefinition) : State :=
  {| heap := list_to_map (imap (λ i d, (i, d)) cells);
     remote := srv; trace := [] |}.

(** The inputs the examples below run on. *)
(** The state the listing request leaves when the service keeps its state. *)
Definition listed `{Collaborators} (srv : Server)
    (cells : list APIDefinition) : State :=
  {| heap := heap (start srv cells); remote := srv;
     trace := [Sent (listRequest client0)] |}.

Definition recordA : DBApiDefinition := mkRecord "a" "A" "foo" "x" "/foo".
Definition recordB : DBApiDefinition := mkRecord "b" "B" "bar" "y" "/bar".
Definition defA : APIDefinition := mkDef "a" "A" "foo" "x" "/foo".
Definition defA_renamed : APIDefinition :=
  mkDef "a" "A" "foo2" EmptyString "/foo".

Definition recordC : DBApiDefinition := mkRecord "c" "C" "baz" "z" "/baz".
Definition defB : APIDefinition := mkDef "b" "B" "bar" EmptyString "/bar".
Definition listingA : APISResponse := {| Apis := [recordA]; Pages := 1 |}.
Definition listingAC : APISResponse :=
  {| Apis := [recordA; recordC]; Pages := 1 |}.

Definition dashEmpty : Collaborators := fixedDashboard 200 [] okEnvelope.
Definition dashAC : Collaborators :=
  fixedDashboard 200 [recordA; recordC] okEnvelope.
Definition dashA : Collaborators := fixedDashboard 200 [recordA] okEnvelope.
Definition dashB : Collaborators := fixedDashboard 200 [recordB] okEnvelope.
Definition dashFailing : Collaborators :=
  fixedDashboard 200 [] errorEnvelope.

(** ** The rest of the package *)

(** [NewDashboardClient]: the client holds the two strings it is given; the
    error is always nil. *)
Definition NewDashboardClient (url secret : string) : Client * option error :=
  ({| url := url; secret := secret |}, None).

(** The HTTP method an operation of the apply phase writes with. *)
Definition opMethod `{Collaborators} (op : Op) : Method :=
  match op with
  | OpDelete _ => DELETE
  | OpUpdate _ => PUT
  | OpCreate _ => POST
  end.

(** A request as the client [c] builds them: the secret as its one header,
    and the resource path of the client's URL, alone or followed by one
    identifier. *)
Definition fromClient `{Collaborators} (c : Client) (req : Request) : Prop :=
  Headers (options req) = [("Authorization", secret c)]
  ∧ (target req = urljoin [url c; endpointAPIs]
     ∨ ∃ id, target req = urljoin [url c; endpointAPIs; id]).

(** The state a request leaves: the service moved on, the request is on the
    trace, the definitions are as they were. *)
Definition answered `{Collaborators} (s : State) (req : Request)
    (srv : Server) : State :=
  {| heap := heap s; remote := srv; trace := trace s ++ [Sent req] |}.

(** A listing that holds the same [Id] twice, first without an [APIID]. *)
Definition recordA_blank : DBApiDefinition :=
  mkRecord "a" "A" "foo" EmptyString "/foo".
Definition dashAA : Collaborators :=
  fixedDashboard 200 [recordA_blank; recordA] okEnvelope.

Definition listingEmpty : APISResponse := {| Apis := []; Pages := 1 |}.
Definition recordA_other : DBApiDefinition :=
  mkRecord "a" "Other" "other" "q" "/other".

(** A dashboard that is down: every answer is a 500. *)
Definition dashDown : Collaborators := fixedDashboard 500 [recordA] okEnvelope.

(** * Facts about the client *)

(** ** Hex is injective *)

Lemma unHex_byte (b : ascii) :
  ascii_of_N (unhexDigit (hexDigit (N_of_ascii b / 16)) * 16
              + unhexDigit (hexDigit (N_of_ascii b mod 16))) = b.
Proof.
  destruct b as [[] [] [] [] [] [] [] []]; vm_compute; reflexivity.
Qed.

Lemma unHex_Hex (id : ObjectId) : unHex (Hex id) = id.
Proof.
  induction id as [|b rest IH]; [reflexivity|].
  cbn [Hex unHex]. rewrite unHex_byte, IH. reflexivity.
Qed.

Lemma Hex_inj (a b : ObjectId) : Hex a = Hex b → a = b.
Proof.
  intros E. rewrite <- (unHex_Hex a), <- (unHex_Hex b), E. reflexivity.
Qed.

Lemma Hex_eq_iff (a b : ObjectId) : Hex a = Hex b ↔ a = b.
Proof. split; [apply Hex_inj | congruence]. Qed.

(** ** The uniqueness scan of CreateAPI *)

Lemma createScan_nonempty (api : DBApiDefinition) rest (def : APIDefinition) :
  createScan (api :: rest) def = Some UseUpdateError.
Proof. cbn [createScan]. repeat case_decide; congruence. Qed.

Lemma createScan_result apis (def : APIDefinition) :
  createScan apis def = match apis with [] => None | _ => Some UseUpdateError end.
Proof. destruct apis; [reflexivity | apply createScan_nonempty]. Qed.

(** ** The record the scan of UpdateAPI stops at *)

Lemma matched_None apis (id : ObjectId) :
  matched apis id = None ↔ ∀ api, api ∈ apis → Id (APIDef api) ≠ id.
Proof.
  induction apis as [|a rest IH]; cbn [matched].
  - split; [intros _ api Hin; inversion Hin | done].
  - case_decide as Ha.
    + split; [done | intros Hall; exfalso; apply (Hall a); [left | done]].
    + rewrite IH. split.
      * intros Hall api [->|Hin]%elem_of_cons; auto.
      * intros Hall api Hin. apply Hall. by right.
Qed.

Lemma matched_Some apis (id : ObjectId) api :
  matched apis id = Some api ↔
  ∃ pre post, apis = pre ++ api :: post
              ∧ (∀ r, r ∈ pre → Id (APIDef r) ≠ id)
              ∧ Id (APIDef api) = id.
Proof.
  induction apis as [|a rest IH]; cbn [matched].
  - split; [done | intros (pre & post & E & _); by destruct pre].
  - case_decide as Ha.
    + split.
      * intros [= <-]. exists [], rest. split_and!; [done | | done].
        intros r Hin; inversion Hin.
      * intros (pre & post & E & Hpre & Hid).
        destruct pre as [|b pre]; simplify_eq/=; [done|].
        exfalso. apply (Hpre b); [left | done].
    + rewrite IH. split.
      * intros (pre & post & -> & Hpre & Hid).
        exists (a :: pre), post. split_and!; [done | | done].
        intros r [->|Hin]%elem_of_cons; auto.
      * intros (pre & post & E & Hpre & Hid).
        destruct pre as [|b pre]; simplify_eq/=.
        exists pre, post. split_and!; [done | | done].
        intros r Hin. apply Hpre. by right.
Qed.

Lemma matched_exists apis (id : ObjectId) r :
  r ∈ apis → Id (APIDef r) = id → ∃ api, matched apis id = Some api.
Proof.
  intros Hin Hid. destruct (matched apis id) as [api|] eqn:E; [eauto|].
  rewrite matched_None in E. by destruct (E r Hin).
Qed.

Lemma matched_only apis pre api post r :
  apis = pre ++ api :: post →
  (∀ x, x ∈ pre → Id (APIDef x) ≠ Id (APIDef api)) →
  NoDup ((λ x, Id (APIDef x)) <$> apis) →
  r ∈ apis →
  Id (APIDef r) = Id (APIDef api) →
  r = api.
Proof.
  intros -> Hpre Hnd Hin Hid.
  apply elem_of_app in Hin as [Hin|Hin]; [by destruct (Hpre r Hin)|].
  apply elem_of_cons in Hin as [->|Hin]; [done|].
  rewrite fmap_app, fmap_cons in Hnd.
  apply NoDup_app in Hnd as (_ & _ & Hnd).
  apply NoDup_cons in Hnd as [Hnotin _]. destruct Hnotin.
  rewrite <- Hid. by apply (list_elem_of_fmap_2 (λ x, Id (APIDef x))).
Qed.

Lemma backfill_Id def api : Id (backfill def api) = Id def.
Proof. unfold backfill. by case_decide. Qed.

Section Facts.

Context `{Collaborators}.

Implicit Types (c : Client) (s : State) (p : loc).

(** ** Fetching the listing *)

Lemma fetchAPIs_run c s :
  ∃ r s', fetchAPIs c s = Some (r, s')
          ∧ heap s' = heap s
          ∧ trace s' = trace s ++ [Sent (listRequest c)].
Proof.
  unfold fetchAPIs, bind, send, ret, listRequest.
  destruct (serve _ _) as [[err|resp] srv]; cbn; repeat case_match; eauto.
Qed.

Lemma fetchAPIs_inv c s r s' :
  fetchAPIs c s = Some (r, s') →
  heap s' = heap s ∧ trace s' = trace s ++ [Sent (listRequest c)].
Proof.
  intros E. destruct (fetchAPIs_run c s) as (r0 & s0 & E0 & ? & ?).
  rewrite E in E0. by simplify_eq.
Qed.

(** ** CreateAPI *)

(** Once one record is listed, whatever it holds, [CreateAPI] gives up
    before it writes. *)
Lemma CreateAPI_nonempty_listing c p s d apis s1 :
  fetchAPIs c s = Some (inr apis, s1) →
  heap s !! p = Some d →
  Apis apis ≠ [] →
  CreateAPI c p s = Some ((EmptyString, Some UseUpdateError), s1).
Proof.
  intros Ef Hp Hne. destruct (fetchAPIs_inv _ _ _ _ Ef) as [Hh _].
  unfold CreateAPI, bind, load, ret. rewrite Ef, Hh, Hp.
  rewrite createScan_result. destruct (Apis apis); done.
Qed.

(** With an empty listing the create request goes out. *)
Lemma CreateAPI_empty_listing c p s d apis s1 :
  fetchAPIs c s = Some (inr apis, s1) →
  heap s !! p = Some d →
  Apis apis = [] →
  ∃ r s', CreateAPI c p s = Some (r, s')
          ∧ snd r ≠ Some UseUpdateError
          ∧ heap s' = heap s
          ∧ trace s' = trace s1 ++ [Sent (createRequest c d)].
Proof.
  intros Ef Hp He. destruct (fetchAPIs_inv _ _ _ _ Ef) as [Hh _].
  unfold CreateAPI, bind, load, ret, send, createRequest.
  rewrite Ef, Hh, Hp, He. cbn [createScan].
  destruct (serve _ _) as [[err|resp] srv]; cbn;
    repeat case_match; simplify_eq; eauto 10.
Qed.

(** ** UpdateAPI *)

Lemma updateScan_skip a rest p s d :
  heap s !! p = Some d →
  Id (APIDef a) ≠ Id d →
  updateScan (a :: rest) p s = updateScan rest p s.
Proof.
  intros Hp Ha. cbn [updateScan]. unfold bind, load. rewrite Hp.
  by case_decide.
Qed.

Lemma updateScan_stop a rest p s d :
  heap s !! p = Some d →
  Id (APIDef a) = Id d →
  ∃ s', updateScan (a :: rest) p s = Some (true, s')
        ∧ heap s' = <[p := backfill d a]> (heap s)
        ∧ remote s' = remote s ∧ trace s' = trace s.
Proof.
  intros Hp Ha. cbn [updateScan]. unfold bind, load. rewrite Hp.
  case_decide; [|done]. unfold backfill, store, ret.
  case_decide.
  - rewrite Hp. eexists. split; [reflexivity|]. done.
  - eexists. split; [reflexivity|]. by rewrite insert_id.
Qed.

Lemma updateScan_run apis p s d :
  heap s !! p = Some d →
  match matched apis (Id d) with
  | Some api =>
      ∃ s', updateScan apis p s = Some (true, s')
            ∧ heap s' = <[p := backfill d api]> (heap s)
            ∧ remote s' = remote s ∧ trace s' = trace s
  | None => updateScan apis p s = Some (false, s)
  end.
Proof.
  intros Hp. induction apis as [|a rest IH]; cbn [matched].
  - reflexivity.
  - case_decide as Ha.
    + by apply updateScan_stop.
    + by rewrite (updateScan_skip a rest p s d).
Qed.

Lemma UpdateAPI_unmatched c p s d apis s1 :
  fetchAPIs c s = Some (inr apis, s1) →
  heap s !! p = Some d →
  matched (Apis apis) (Id d) = None →
  UpdateAPI c p s = Some (Some UseCreateError, s1).
Proof.
  intros Ef Hp Hm. destruct (fetchAPIs_inv _ _ _ _ Ef) as [Hh _].
  rewrite <- Hh in Hp. pose proof (updateScan_run (Apis apis) p s1 d Hp) as Hs.
  rewrite Hm in Hs. unfold UpdateAPI, bind. by rewrite Ef, Hs.
Qed.

Lemma UpdateAPI_matched c p s d apis s1 api :
  fetchAPIs c s = Some (inr apis, s1) →
  heap s !! p = Some d →
  matched (Apis apis) (Id d) = Some api →
  ∃ res s', UpdateAPI c p s = Some (res, s')
            ∧ res ≠ Some UseCreateError
            ∧ heap s' = <[p := backfill d api]> (heap s)
            ∧ trace s' = trace s1 ++ [Sent (updateRequest c (backfill d api))].
Proof.
  intros Ef Hp Hm. destruct (fetchAPIs_inv _ _ _ _ Ef) as [Hh _].
  rewrite <- Hh in Hp. pose proof (updateScan_run (Apis apis) p s1 d Hp) as Hs.
  rewrite Hm in Hs. destruct Hs as (s2 & Hs & Hh2 & Hr2 & Ht2).
  unfold UpdateAPI, bind. rewrite Ef, Hs. cbn [negb].
  unfold load. rewrite Hh2, lookup_insert_eq.
  unfold send, ret, updateRequest. rewrite Ht2, Hh2, Hh.
  destruct (serve _ _) as [[err|resp] srv]; cbn;
    repeat case_match; simplify_eq; eauto 10.
Qed.

(** [UpdateAPI] returns whenever its pointer is valid; it rewrites that
    cell at most and sends the listing request, then at most one PUT. *)
Lemma UpdateAPI_run c p s d :
  heap s !! p = Some d →
  ∃ res s' d', UpdateAPI c p s = Some (res, s')
    ∧ heap s' = <[p := d']> (heap s)
    ∧ (trace s' = trace s ++ [Sent (listRequest c)]
       ∨ trace s' = trace s ++ [Sent (listRequest c);
                                Sent (updateRequest c d')]).
Proof.
  intros Hp. destruct (fetchAPIs_run c s) as ([err|apis] & s1 & Ef & Hh & Ht).
  - exists (Some err), s1, d. unfold UpdateAPI, bind, ret. rewrite Ef.
    split_and!; [done | by rewrite insert_id | by left].
  - destruct (matched (Apis apis) (Id d)) as [api|] eqn:Hm.
    + destruct (UpdateAPI_matched _ _ _ _ _ _ _ Ef Hp Hm)
        as (res & s' & E & _ & Hh' & Ht').
      exists res, s', (backfill d api). split_and!; [done | done |].
      right. by rewrite Ht', Ht, <- app_assoc.
    + exists (Some UseCreateError), s1, d.
      split_and!; [by eapply UpdateAPI_unmatched | by rewrite insert_id
                  | by left].
Qed.

(** [CreateAPI] returns whenever its pointer is valid; it leaves the heap
    alone and sends the listing request, then at most one POST. *)
Lemma CreateAPI_run c p s d :
  heap s !! p = Some d →
  ∃ res s', CreateAPI c p s = Some (res, s')
    ∧ heap s' = heap s
    ∧ (trace s' = trace s ++ [Sent (listRequest c)]
       ∨ trace s' = trace s ++ [Sent (listRequest c);
                                Sent (createRequest c d)]).
Proof.
  intros Hp. destruct (fetchAPIs_run c s) as ([err|apis] & s1 & Ef & Hh & Ht).
  - exists (EmptyString, Some err), s1. unfold CreateAPI, bind, ret.
    rewrite Ef. split_and!; [done | done | by left].
  - destruct (Apis apis) as [|a rest] eqn:Hl.
    + destruct (CreateAPI_empty_listing _ _ _ _ _ _ Ef Hp Hl)
        as (res & s' & E & _ & Hh' & Ht').
      exists res, s'. split_and!; [done | done |].
      right. by rewrite Ht', Ht, <- app_assoc.
    + exists (EmptyString, Some UseUpdateError), s1.
      split_and!; [| done | by left].
      eapply CreateAPI_nonempty_listing; [done | done |]. by rewrite Hl.
Qed.

(** ** deleteAPI *)

Lemma deleteAPI_run c id s :
  ∃ res s', deleteAPI c id s = Some (res, s')
    ∧ heap s' = heap s
    ∧ trace s' = trace s ++ [Sent (deleteRequest c id)].
Proof.
  unfold deleteAPI, bind, send, ret, deleteRequest.
  destruct (serve _ _) as [[err|resp] srv]; cbn; repeat case_match; eauto.
Qed.

(** A 200 answer to the DELETE is success, whatever its body says. *)
Lemma deleteAPI_status_200 c id s resp srv :
  serve (deleteRequest c id) (remote s) = (inr resp, srv) →
  StatusCode resp = 200%Z →
  ∃ s', deleteAPI c id s = Some (None, s').
Proof.
  intros Es Hc. unfold deleteAPI, bind, send, ret.
  unfold deleteRequest in Es. rewrite Es. cbn.
  case_decide; [done | eauto].
Qed.

(** ** The response envelope *)

Lemma CreateAPI_envelope c p s d apis s1 resp srv status :
  fetchAPIs c s = Some (inr apis, s1) →
  heap s !! p = Some d →
  Apis apis = [] →
  serve (createRequest c d) (remote s1) = (inr resp, srv) →
  StatusCode resp = 200%Z →
  decodeStatus (Body resp) = inr status →
  Status status ≠ "OK" →
  ∃ s', CreateAPI c p s
        = Some ((EmptyString, Some (envelopeError status)), s').
Proof.
  intros Ef Hp He Es Hc Hd Hst.
  destruct (fetchAPIs_inv _ _ _ _ Ef) as [Hh _].
  unfold CreateAPI, bind, load, ret, send.
  unfold createRequest in Es.
  rewrite Ef, Hh, Hp, He. cbn [createScan]. rewrite Es. cbn.
  case_decide; [done|]. rewrite Hd. case_decide; [eauto | done].
Qed.

Lemma UpdateAPI_envelope c p s d apis s1 api resp srv status :
  fetchAPIs c s = Some (inr apis, s1) →
  heap s !! p = Some d →
  matched (Apis apis) (Id d) = Some api →
  serve (updateRequest c (backfill d api)) (remote s1) = (inr resp, srv) →
  StatusCode resp = 200%Z →
  decodeStatus (Body resp) = inr status →
  Status status ≠ "OK" →
  ∃ s', UpdateAPI c p s = Some (Some (envelopeError status), s').
Proof.
  intros Ef Hp Hm Es Hc Hd Hst.
  destruct (fetchAPIs_inv _ _ _ _ Ef) as [Hh _].
  rewrite <- Hh in Hp.
  pose proof (updateScan_run (Apis apis) p s1 d Hp) as Hs.
  rewrite Hm in Hs. destruct Hs as (s2 & Hs & Hh2 & Hr2 & Ht2).
  unfold UpdateAPI, bind. rewrite Ef, Hs. cbn [negb].
  unfold load. rewrite Hh2, lookup_insert_eq.
  unfold send, ret. unfold updateRequest in Es. rewrite Hr2, Es. cbn.
  case_decide; [done|]. rewrite Hd. case_decide; [eauto | done].
Qed.

End Facts.

(** * The claims about the single-record operations *)

(** C1 (fails on the code).  A definition that shares none of the four keys
    with the one listed record is still refused: [CreateAPI] answers
    [UseUpdateError] and sends no write, because the fourth test of its scan
    compares the record's listen path with itself. *)
Theorem CreateAPI_refuses_without_collision :
  (APIID (APIDef recordB) ≠ APIID defA
   ∧ Id (APIDef recordB) ≠ Id defA
   ∧ Slug (APIDef recordB) ≠ Slug defA
   ∧ ListenPath (Proxy (APIDef recordB)) ≠ ListenPath (Proxy defA))
  ∧ ∃ s', CreateAPI (H := dashB) client0 0 (start (H := dashB) tt [defA])
          = Some ((EmptyString, Some UseUpdateError), s')
          ∧ writes (trace s') = [].
Proof.
  split; [by repeat split|].
  eexists. split; [vm_compute; reflexivity | reflexivity].
Qed.

(** C4 (fails on the code for delete).  The dashboard answers the DELETE
    with HTTP 200 and an envelope whose status is not OK; [deleteAPI] never
    decodes the envelope and reports success. *)
Theorem deleteAPI_accepts_failed_envelope :
  Status errorEnvelope ≠ "OK"
  ∧ (∀ body, decodeStatus (Collaborators := dashFailing) body
             = inr errorEnvelope)
  ∧ ∃ s', deleteAPI (H := dashFailing) client0 "61"
            (start (H := dashFailing) tt [])
          = Some (None, s')
          ∧ trace s' = [Sent (deleteRequest (H := dashFailing) client0 "61")].
Proof.
  split; [done|]. split; [done|].
  eexists. split; [vm_compute; reflexivity | reflexivity].
Qed.

(** C5 (as stated it fails).  The definition has no [APIID] and its [Id]
    is that of a listed record with the [APIID] x; an earlier record of the
    listing has the same [Id] and no [APIID].  The scan stops at the
    earlier one: the body of the PUT and the caller's cell carry an empty
    [APIID], not x. *)
Lemma UpdateAPI_backfills_from_first_match_only :
  APIID defA_renamed = EmptyString
  ∧ recordA ∈ [recordA_blank; recordA]
  ∧ Id (APIDef recordA) = Id defA_renamed
  ∧ APIID (APIDef recordA) ≠ EmptyString
  ∧ ∃ res s' body,
      UpdateAPI (H := dashAA) client0 0
        (start (H := dashAA) tt [defA_renamed])
      = Some (res, s')
      ∧ payloads (trace s') = [body]
      ∧ APIID (APIDef body) = EmptyString
      ∧ APIID (APIDef body) ≠ APIID (APIDef recordA)
      ∧ heap s' !! 0 = Some defA_renamed.
Proof.
  split_and!; [reflexivity | by right; left | reflexivity | discriminate |].
  eexists _, _, _. split; [vm_compute; reflexivity|].
  split_and!; [reflexivity | reflexivity | discriminate | reflexivity].
Qed.

Section SingleRecord.

Context `{Collaborators}.

Implicit Types (c : Client) (s : State) (p : loc).

(** C5 (amended).  When the listing holds a record with the definition's
    [Id], [UpdateAPI] sends one PUT after the listing request.  Its body
    and the caller's cell hold the definition; an empty [APIID] has been
    replaced by the [APIID] of the first record of the listing with that
    [Id], a non-empty one is left as it was.  When the remote Ids are
    distinct that first record is the only record with the [Id]. *)
Theorem UpdateAPI_backfills_APIID c p s d apis s1 :
  fetchAPIs c s = Some (inr apis, s1) →
  heap s !! p = Some d →
  (∃ r, r ∈ Apis apis ∧ Id (APIDef r) = Id d) →
  ∃ pre api post res s' req body,
    Apis apis = pre ++ api :: post
    ∧ (∀ r, r ∈ pre → Id (APIDef r) ≠ Id d)
    ∧ Id (APIDef api) = Id d
    ∧ UpdateAPI c p s = Some (res, s')
    ∧ trace s' = trace s ++ [Sent (listRequest c); Sent req]
    ∧ method req = PUT
    ∧ JSON (options req) = Some body
    ∧ heap s' !! p = Some (APIDef body)
    ∧ (APIID d = EmptyString →
       APIDef body = setAPIID d (APIID (APIDef api))
       ∧ APIID (APIDef body) = APIID (APIDef api))
    ∧ (APIID d ≠ EmptyString → APIDef body = d)
    ∧ (NoDup ((λ x, Id (APIDef x)) <$> Apis apis) →
       ∀ x, x ∈ Apis apis → Id (APIDef x) = Id d → x = api).
Proof.
  intros Ef Hp (r & Hin & Hid).
  destruct (matched_exists _ _ _ Hin Hid) as [api Hm].
  destruct (proj1 (matched_Some _ _ _) Hm) as (pre & post & E & Hpre & Ha).
  destruct (UpdateAPI_matched _ _ _ _ _ _ _ Ef Hp Hm)
    as (res & s' & Hu & _ & Hh & Ht).
  destruct (fetchAPIs_inv _ _ _ _ Ef) as [_ Ht1].
  exists pre, api, post, res, s', (updateRequest c (backfill d api)),
    (fixDBDef (asDBDefOf (backfill d api))).
  split_and!; try done.
  - by rewrite Ht, Ht1, <- app_assoc.
  - by rewrite Hh, lookup_insert_eq.
  - intros He. cbn. unfold backfill. by case_decide.
  - intros He. cbn. unfold backfill. by case_decide.
  - intros Hnd x Hx Hxid.
    apply (matched_only (Apis apis) pre api post x E); [| done | done |].
    + by rewrite Ha.
    + by rewrite Ha.
Qed.

(** C6.  When no record of the fetched listing has the definition's [Id],
    [UpdateAPI] returns [UseCreateError] in the state the listing request
    left, so without any write; and whenever [UpdateAPI] does send a
    write, some listed record has that [Id]. *)
Theorem UpdateAPI_absent_record c p s d apis s1 :
  fetchAPIs c s = Some (inr apis, s1) →
  heap s !! p = Some d →
  ((∀ api, api ∈ Apis apis → Id (APIDef api) ≠ Id d) →
   UpdateAPI c p s = Some (Some UseCreateError, s1)
   ∧ ∃ evs, trace s1 = trace s ++ evs ∧ writes evs = [])
  ∧ (∀ res s' evs req,
       UpdateAPI c p s = Some (res, s') →
       trace s' = trace s ++ evs →
       req ∈ writes evs →
       ∃ api, api ∈ Apis apis ∧ Id (APIDef api) = Id d).
Proof.
  intros Ef Hp. destruct (fetchAPIs_inv _ _ _ _ Ef) as [_ Ht1].
  assert (Hnone : (∀ api, api ∈ Apis apis → Id (APIDef api) ≠ Id d) →
                  UpdateAPI c p s = Some (Some UseCreateError, s1)).
  { intros Hall. eapply UpdateAPI_unmatched; [done | done |].
    by apply matched_None. }
  split.
  - intros Hall. split; [by apply Hnone|].
    exists [Sent (listRequest c)]. by split.
  - intros res s' evs req Hu Ht Hw.
    destruct (matched (Apis apis) (Id d)) as [api|] eqn:Hm.
    + apply matched_Some in Hm as (pre & post & E & _ & Ha).
      exists api. split; [|done]. rewrite E. set_solver.
    + rewrite matched_None in Hm. rewrite (Hnone Hm) in Hu.
      simplify_eq. rewrite Ht1 in Ht. apply app_inv_head in Ht.
      subst evs. cbn in Hw. inversion Hw.
Qed.

(** C7.  [fixDBDef] turns a nil hook-references slice into the empty one,
    and every body that [CreateAPI] or [UpdateAPI] puts on the wire has
    the empty slice there, never nil. *)
Theorem payloads_have_hook_references c p s d :
  heap s !! p = Some d →
  (∀ def, HookReferences def = None →
          HookReferences (fixDBDef def) = Some []
          ∧ APIDef (fixDBDef def) = APIDef def)
  ∧ (∃ res s' evs,
       CreateAPI c p s = Some (res, s')
       ∧ trace s' = trace s ++ evs
       ∧ ∀ body, body ∈ payloads evs → HookReferences body = Some [])
  ∧ (∃ res s' evs,
       UpdateAPI c p s = Some (res, s')
       ∧ trace s' = trace s ++ evs
       ∧ ∀ body, body ∈ payloads evs → HookReferences body = Some []).
Proof.
  intros Hp. split_and!.
  - intros def Hn. unfold fixDBDef. by rewrite Hn.
  - destruct (CreateAPI_run c p s d Hp) as (res & s' & E & _ & [Ht|Ht]);
      eexists res, s', _; (split_and!; [exact E | exact Ht |]);
      cbn; intros body Hb.
    + by apply elem_of_nil in Hb.
    + by apply list_elem_of_singleton in Hb as ->.
  - destruct (UpdateAPI_run c p s d Hp) as (res & s' & d' & E & _ & [Ht|Ht]);
      eexists res, s', _; (split_and!; [exact E | exact Ht |]);
      cbn; intros body Hb.
    + by apply elem_of_nil in Hb.
    + by apply list_elem_of_singleton in Hb as ->.
Qed.

(** C8.  A listed record with the definition's [Id] and another [Slug]:
    the scan of [UpdateAPI] reports a match, [UpdateAPI] does not answer
    [UseCreateError], and the PUT goes to that [Id]. *)
Theorem UpdateAPI_Id_decides_match c p s DEF apis s1 R :
  fetchAPIs c s = Some (inr apis, s1) →
  heap s !! p = Some DEF →
  R ∈ Apis apis →
  Id DEF = Id (APIDef R) →
  Slug DEF ≠ Slug (APIDef R) →
  (∃ s2, updateScan (Apis apis) p s1 = Some (true, s2))
  ∧ ∃ res s' req,
      UpdateAPI c p s = Some (res, s')
      ∧ res ≠ Some UseCreateError
      ∧ trace s' = trace s ++ [Sent (listRequest c); Sent req]
      ∧ method req = PUT
      ∧ target req = urljoin [url c; endpointAPIs; Hex (Id DEF)].
Proof.
  intros Ef Hp Hin Hid _.
  destruct (matched_exists _ _ _ Hin (eq_sym Hid)) as [api Hm].
  destruct (fetchAPIs_inv _ _ _ _ Ef) as [Hh Ht1].
  split.
  - assert (Hp1 : heap s1 !! p = Some DEF) by by rewrite Hh.
    pose proof (updateScan_run (Apis apis) p s1 DEF Hp1) as Hs.
    rewrite Hm in Hs. destruct Hs as (s2 & Hs & _). eauto.
  - destruct (UpdateAPI_matched _ _ _ _ _ _ _ Ef Hp Hm)
      as (res & s' & Hu & Hne & _ & Ht).
    exists res, s', (updateRequest c (backfill DEF api)).
    split_and!; [done | done | | done |].
    + by rewrite Ht, Ht1, <- app_assoc.
    + cbn. by rewrite backfill_Id.
Qed.

End SingleRecord.

(** * Facts about the reconciliation plan *)

(** ** The identifier maps *)

Lemma buildIDMap_lookup {A} (key : A → string) xs i (m : gmap string nat) k n :
  buildIDMap key xs i m !! k = Some n ↔
  (∃ j x, n = i + j ∧ xs !! j = Some x ∧ key x = k
          ∧ ∀ j' x', j < j' → xs !! j' = Some x' → key x' ≠ k)
  ∨ (m !! k = Some n ∧ ∀ x, x ∈ xs → key x ≠ k).
Proof.
  revert i m. induction xs as [|x rest IH]; intros i m; cbn [buildIDMap].
  - split.
    + intros Hm. right. split; [done|]. intros x Hx. inversion Hx.
    + intros [(j & x & _ & Hl & _) | [Hm _]]; done.
  - rewrite IH. split.
    + intros [(j & y & -> & Hl & Hk & Hlater) | [Hm Hall]].
      * left. exists (S j), y. split_and!; [lia | done | done |].
        intros [|j'] x' Hlt Hl'; [lia|]. eapply Hlater; [|exact Hl']. lia.
      * destruct (decide (key x = k)) as [Hx|Hx].
        -- subst k. rewrite lookup_insert_eq in Hm. injection Hm as <-.
           left. exists 0, x. split_and!; [lia | done | done |].
           intros [|j'] x' Hlt Hl'; [lia|]. apply Hall.
           eapply list_elem_of_lookup_2. exact Hl'.
        -- rewrite lookup_insert_ne in Hm by done. right. split; [done|].
           intros y [->|Hy]%elem_of_cons; auto.
    + intros [(j & y & -> & Hl & Hk & Hlater) | [Hm Hall]].
      * destruct j as [|j]; cbn in Hl.
        -- injection Hl as ->. right. split.
           { subst k. rewrite lookup_insert_eq. f_equal. lia. }
           intros z Hz. apply list_elem_of_lookup in Hz as [j' Hj'].
           eapply (Hlater (S j')); [lia | exact Hj'].
        -- left. exists j, y. split_and!; [lia | done | done |].
           intros j' x' Hlt Hl'. apply (Hlater (S j') x'); [lia | done].
      * right. split.
        { rewrite lookup_insert_ne; [done|]. apply Hall. left. }
        intros z Hz. apply Hall. by right.
Qed.

(** The index kept for a key is the last position holding that key. *)
Lemma buildIDMap_last {A} (key : A → string) xs k n :
  buildIDMap key xs 0 ∅ !! k = Some n ↔
  ∃ x, xs !! n = Some x ∧ key x = k
       ∧ ∀ n' x', n < n' → xs !! n' = Some x' → key x' ≠ k.
Proof.
  rewrite buildIDMap_lookup. split.
  - intros [(j & x & -> & Hrest) | [Hm _]]; [eauto | done].
  - intros (x & Hrest). left. exists n, x. by split.
Qed.

Lemma buildIDMap_is_Some {A} (key : A → string) xs i (m : gmap string nat) k :
  is_Some (buildIDMap key xs i m !! k) ↔
  (∃ x, x ∈ xs ∧ key x = k) ∨ is_Some (m !! k).
Proof.
  revert i m. induction xs as [|x rest IH]; intros i m; cbn [buildIDMap].
  - split; [by right | intros [(x & Hx & _)|Hm]; [inversion Hx | done]].
  - rewrite IH, lookup_insert_is_Some. split.
    + intros [(y & Hy & Hk) | [Hx | [_ Hm]]].
      * left. exists y. split; [by right | done].
      * left. exists x. split; [by left | done].
      * by right.
    + intros [(y & [->|Hy]%elem_of_cons & Hk) | Hm].
      * right. by left.
      * left. eauto.
      * destruct (decide (key x = k)); right; [by left | by right].
Qed.

Lemma present_true (m : gmap string nat) k :
  present m k = true ↔ is_Some (m !! k).
Proof.
  unfold present. destruct (m !! k); split; try done; by eauto.
Qed.

Lemma present_buildIDMap {A} (key : A → string) xs k :
  present (buildIDMap key xs 0 ∅) k = true ↔ ∃ x, x ∈ xs ∧ key x = k.
Proof.
  rewrite present_true, buildIDMap_is_Some. split; [|by left].
  intros [Hx | [? Hm]]; [done | by rewrite lookup_empty in Hm].
Qed.

Lemma present_Dash apis k :
  present (DashIDMap apis) k = true ↔
  ∃ api, api ∈ apis ∧ Hex (Id (APIDef api)) = k.
Proof. apply present_buildIDMap. Qed.

Lemma present_Git apiDefs k :
  present (GitIDMap apiDefs) k = true ↔
  ∃ def, def ∈ apiDefs ∧ Hex (Id def) = k.
Proof. apply present_buildIDMap. Qed.

Lemma GitIDMap_lookup apiDefs k n :
  GitIDMap apiDefs !! k = Some n ↔
  ∃ def, last_with_Id apiDefs n def ∧ Hex (Id def) = k.
Proof.
  unfold GitIDMap, last_with_Id. rewrite buildIDMap_last. split.
  - intros (d & Hl & Hk & Hlater). exists d. split_and!; [done | | done].
    intros n' d' Hlt Hl' Hid. apply (Hlater n' d' Hlt Hl'). congruence.
  - intros (d & [Hl Hlater] & Hk). exists d. split_and!; [done | done |].
    intros n' d' Hlt Hl' Hid. apply (Hlater n' d' Hlt Hl').
    apply Hex_inj. congruence.
Qed.

(** ** The selecting loops *)

Lemma selectDefs_spec apiDefs keep entries acc :
  (∀ e, e ∈ entries → is_Some (apiDefs !! e.2)) →
  selectDefs apiDefs keep entries acc
  = Some (acc ++ omap (pick apiDefs keep) entries).
Proof.
  revert acc. induction entries as [|[key index] rest IH]; intros acc Hin.
  - cbn. by rewrite app_nil_r.
  - cbn [selectDefs omap list_omap]. unfold pick at 1. cbn [fst snd].
    destruct (keep key).
    + destruct (Hin (key, index)) as [d Hd]; [left|]. cbn in Hd.
      rewrite Hd, IH, <- app_assoc; [done|].
      intros e He. apply Hin. by right.
    + apply IH. intros e He. apply Hin. by right.
Qed.

Lemma selectKeys_spec keep entries acc :
  selectKeys keep entries acc = acc ++ omap (pickKey keep) entries.
Proof.
  revert acc. induction entries as [|[key index] rest IH]; intros acc.
  - cbn. by rewrite app_nil_r.
  - cbn [selectKeys omap list_omap]. unfold pickKey at 1. cbn [fst].
    destruct (keep key); [|apply IH]. by rewrite IH, <- app_assoc.
Qed.

Lemma range_lookup (o : RangeOrder) (m : gmap string nat) key index :
  (key, index) ∈ range o m ↔ m !! key = Some index.
Proof. by rewrite (range_perm o m), elem_of_map_to_list. Qed.

Lemma range_Git_index (o : RangeOrder) apiDefs e :
  e ∈ range o (GitIDMap apiDefs) → is_Some (apiDefs !! e.2).
Proof.
  destruct e as [key index]. rewrite range_lookup, GitIDMap_lookup.
  intros (d & [Hl _] & _). eauto.
Qed.

(** The plan is always computed: no index kept in the map is out of
    range. *)
Lemma plan_run ou od oc apis apiDefs :
  plan ou od oc apis apiDefs
  = Some {|
      deleteAPIs :=
        omap (pickKey (λ key, negb (present (GitIDMap apiDefs) key)))
          (range od (DashIDMap apis));
      updateAPIs :=
        omap (pick apiDefs (present (DashIDMap apis)))
          (range ou (GitIDMap apiDefs));
      createAPIs :=
        omap (pick apiDefs (λ key, negb (present (DashIDMap apis) key)))
          (range oc (GitIDMap apiDefs)) |}.
Proof.
  unfold plan.
  rewrite !selectDefs_spec by (intros e; apply range_Git_index).
  by rewrite selectKeys_spec.
Qed.

Lemma elem_of_pick (o : RangeOrder) apiDefs keep def :
  def ∈ omap (pick apiDefs keep) (range o (GitIDMap apiDefs)) ↔
  (∃ n, last_with_Id apiDefs n def) ∧ keep (Hex (Id def)) = true.
Proof.
  rewrite list_elem_of_omap. split.
  - intros ([key index] & He & Hp). unfold pick in Hp. cbn in Hp.
    apply range_lookup, GitIDMap_lookup in He as (d & Hlast & <-).
    destruct (keep (Hex (Id d))) eqn:Hk; [|done].
    destruct Hlast as [Hl Hlater]. rewrite Hl in Hp. injection Hp as <-.
    split; [by exists index | done].
  - intros [[n Hlast] Hk]. exists (Hex (Id def), n). split.
    + apply range_lookup, GitIDMap_lookup. eauto.
    + unfold pick. cbn. rewrite Hk. apply Hlast.
Qed.

Lemma elem_of_pickKey (o : RangeOrder) (m : gmap string nat) keep key :
  key ∈ omap (pickKey keep) (range o m) ↔
  is_Some (m !! key) ∧ keep key = true.
Proof.
  rewrite list_elem_of_omap. split.
  - intros ([k index] & He & Hp). unfold pickKey in Hp. cbn in Hp.
    apply range_lookup in He. destruct (keep k) eqn:Hk; [|done].
    injection Hp as ->. eauto.
  - intros [[index Hm] Hk]. exists (key, index). split.
    + by apply range_lookup.
    + unfold pickKey. cbn. by rewrite Hk.
Qed.

Lemma exists_last_with_Id apiDefs def :
  def ∈ apiDefs →
  ∃ k dk, GitIDMap apiDefs !! Hex (Id def) = Some k
          ∧ last_with_Id apiDefs k dk ∧ Id dk = Id def.
Proof.
  intros Hin.
  assert (is_Some (GitIDMap apiDefs !! Hex (Id def))) as [k Hk].
  { apply present_true, present_Git. eauto. }
  pose proof Hk as Hk'.
  apply GitIDMap_lookup in Hk' as (dk & Hlast & Hid).
  apply Hex_inj in Hid. eauto.
Qed.

Lemma last_with_Id_unique apiDefs n def n' def' :
  last_with_Id apiDefs n def → last_with_Id apiDefs n' def' →
  Id def = Id def' → n = n' ∧ def = def'.
Proof.
  intros [Hl Hlater] [Hl' Hlater'] Hid.
  destruct (lt_eq_lt_dec n n') as [[Hlt | ->] | Hlt].
  - by destruct (Hlater n' def' Hlt Hl').
  - split; [done | congruence].
  - by destruct (Hlater' n def Hlt Hl).
Qed.

Lemma last_with_Id_NoDup apiDefs def :
  NoDup (Id <$> apiDefs) →
  (∃ n, last_with_Id apiDefs n def) ↔ def ∈ apiDefs.
Proof.
  intros Hnd. split.
  - intros (n & Hl & _). by eapply list_elem_of_lookup_2.
  - intros (n & Hl)%list_elem_of_lookup. exists n. split; [done|].
    intros n' def' Hlt Hl' Hid.
    assert (n' = n); [|lia].
    eapply (NoDup_lookup (Id <$> apiDefs) n' n (Id def)); [done | |].
    + rewrite list_lookup_fmap, Hl'. cbn. by rewrite Hid.
    + by rewrite list_lookup_fmap, Hl.
Qed.

(** * The claims about Sync's plan *)

(** C2 (as stated it fails).  Two desired definitions share the [Id] of the
    listed record; the first of them has its [Id] among the remote Ids and
    is not in [updateAPIs]. *)
Lemma Sync_plan_is_not_the_stated_partition :
  ∃ p, plan rangeSorted rangeSorted rangeSorted [recordA] [defA; defA_renamed]
       = Some p
       ∧ ¬ partition_as_stated [recordA] [defA; defA_renamed] p.
Proof.
  eexists. split; [vm_compute; reflexivity|].
  intros (Hu & _). destruct (Hu defA) as [_ Hin].
  assert (defA ∈ [defA_renamed]) as Hbad.
  { apply Hin. split; [left|]. exists recordA. split; [left | done]. }
  apply list_elem_of_singleton in Hbad. discriminate Hbad.
Qed.

(** C2 (amended).  For every desired list and every remote listing the plan
    is computed, and whatever the iteration orders: [updateAPIs] holds
    exactly the desired definitions that are the last entry of the list with
    their [Id] and whose [Id] is a remote one; [createAPIs] exactly those
    last entries whose [Id] is not a remote one; [deleteAPIs] exactly the
    hex identifiers of the remote records that no desired definition
    carries.  The three do not overlap.  When the desired Ids are pairwise
    distinct, every desired definition is such a last entry. *)
Theorem Sync_plan_partition ou od oc apis apiDefs :
  ∃ p, plan ou od oc apis apiDefs = Some p
  ∧ (∀ def, def ∈ updateAPIs p ↔
            (∃ n, last_with_Id apiDefs n def)
            ∧ ∃ api, api ∈ apis ∧ Id (APIDef api) = Id def)
  ∧ (∀ def, def ∈ createAPIs p ↔
            (∃ n, last_with_Id apiDefs n def)
            ∧ ¬ ∃ api, api ∈ apis ∧ Id (APIDef api) = Id def)
  ∧ (∀ key, key ∈ deleteAPIs p ↔
            (∃ api, api ∈ apis ∧ Hex (Id (APIDef api)) = key)
            ∧ ¬ ∃ def, def ∈ apiDefs ∧ Hex (Id def) = key)
  ∧ (∀ def, ¬ (def ∈ updateAPIs p ∧ def ∈ createAPIs p))
  ∧ (∀ key def, key ∈ deleteAPIs p →
                def ∈ updateAPIs p ∨ def ∈ createAPIs p →
                Hex (Id def) ≠ key)
  ∧ (NoDup (Id <$> apiDefs) →
     ∀ def, (∃ n, last_with_Id apiDefs n def) ↔ def ∈ apiDefs).
Proof.
  eexists. split; [apply plan_run|]. cbn [updateAPIs createAPIs deleteAPIs].
  assert (Hupd : ∀ def,
    def ∈ omap (pick apiDefs (present (DashIDMap apis)))
            (range ou (GitIDMap apiDefs)) ↔
    (∃ n, last_with_Id apiDefs n def)
    ∧ ∃ api, api ∈ apis ∧ Id (APIDef api) = Id def).
  { intros def. rewrite elem_of_pick, present_Dash.
    by setoid_rewrite Hex_eq_iff. }
  assert (Hcre : ∀ def,
    def ∈ omap (pick apiDefs (λ key, negb (present (DashIDMap apis) key)))
            (range oc (GitIDMap apiDefs)) ↔
    (∃ n, last_with_Id apiDefs n def)
    ∧ ¬ ∃ api, api ∈ apis ∧ Id (APIDef api) = Id def).
  { intros def. rewrite elem_of_pick, negb_true_iff, <- not_true_iff_false.
    rewrite present_Dash. by setoid_rewrite Hex_eq_iff. }
  assert (Hdel : ∀ key,
    key ∈ omap (pickKey (λ key, negb (present (GitIDMap apiDefs) key)))
            (range od (DashIDMap apis)) ↔
    (∃ api, api ∈ apis ∧ Hex (Id (APIDef api)) = key)
    ∧ ¬ ∃ def, def ∈ apiDefs ∧ Hex (Id def) = key).
  { intros key. rewrite elem_of_pickKey, negb_true_iff, <- not_true_iff_false.
    by rewrite <- present_true, present_Dash, present_Git. }
  split_and!; [done | done | done | | |].
  - intros def [[_ Hyes]%Hupd [_ Hno]%Hcre]. done.
  - intros key def [_ Hno]%Hdel Hdef Hk. apply Hno. exists def. split; [|done].
    destruct Hdef as [[(n & Hl & _) _]%Hupd | [(n & Hl & _) _]%Hcre];
      by eapply list_elem_of_lookup_2.
  - intros Hnd def. by apply last_with_Id_NoDup.
Qed.

Lemma range_NoDup_keys (o : RangeOrder) (m : gmap string nat) :
  NoDup (range o m).*1.
Proof. rewrite (range_perm o m). apply NoDup_fst_map_to_list. Qed.

(** Among the definitions a selecting loop appends, those with a given [Id]:
    the entry of that [Id]'s key contributes its definition, once, and no
    other entry contributes. *)
Lemma filter_pick_entries apiDefs keep id k dk entries :
  NoDup entries.*1 →
  (∀ e, e ∈ entries → GitIDMap apiDefs !! e.1 = Some e.2) →
  GitIDMap apiDefs !! Hex id = Some k →
  apiDefs !! k = Some dk →
  Id dk = id →
  filter (λ def, Id def = id) (omap (pick apiDefs keep) entries)
  = if decide ((Hex id, k) ∈ entries)
    then (if keep (Hex id) then [dk] else [])
    else [].
Proof.
  intros Hnd Hall Hk Hdk Hid.
  induction entries as [|[key index] rest IH].
  - cbn. by rewrite decide_False by apply not_elem_of_nil.
  - cbn [fmap list_fmap fst] in Hnd. apply NoDup_cons in Hnd as [Hfresh Hnd].
    assert (Hrest : ∀ e, e ∈ rest → GitIDMap apiDefs !! e.1 = Some e.2).
    { intros e He. apply Hall. by right. }
    specialize (IH Hnd Hrest).
    pose proof (Hall (key, index) ltac:(left)) as Hhead. cbn in Hhead.
    cbn [omap list_omap]. unfold pick at 1. cbn [fst snd].
    destruct (decide (key = Hex id)) as [->|Hne].
    + assert (index = k) as -> by congruence.
      rewrite decide_True by left.
      rewrite decide_False in IH.
      2:{ intros Hin. apply Hfresh.
          apply (list_elem_of_fmap_2 fst) in Hin. exact Hin. }
      destruct (keep (Hex id)).
      * rewrite Hdk. rewrite filter_cons_True by done. by rewrite IH.
      * exact IH.
    + assert (Hmem : (Hex id, k) ∈ (key, index) :: rest ↔ (Hex id, k) ∈ rest).
      { rewrite elem_of_cons. split; [|by right].
        intros [[= Hbad _] | Hin]; [by destruct Hne | done]. }
      rewrite (decide_ext _ _ _ _ Hmem).
      destruct (keep key); [|exact IH].
      apply GitIDMap_lookup in Hhead as (d & [Hd _] & Hkey).
      rewrite Hd. rewrite filter_cons_False; [exact IH|].
      intros Hbad. apply Hne. by rewrite <- Hkey, Hbad.
Qed.

Lemma filter_pick_range (o : RangeOrder) apiDefs keep k dk :
  last_with_Id apiDefs k dk →
  filter (λ def, Id def = Id dk)
    (omap (pick apiDefs keep) (range o (GitIDMap apiDefs)))
  = if keep (Hex (Id dk)) then [dk] else [].
Proof.
  intros Hlast.
  assert (Hk : GitIDMap apiDefs !! Hex (Id dk) = Some k).
  { apply GitIDMap_lookup. eauto. }
  rewrite (filter_pick_entries apiDefs keep (Id dk) k dk);
    [| apply range_NoDup_keys | | done | apply Hlast | done].
  - rewrite decide_True; [done|]. by apply range_lookup.
  - intros [key index] He. by apply range_lookup in He.
Qed.

(** C10.  Two entries of the desired list with one [Id], at [i < j]: the
    plan is computed, the index kept for that [Id] is the last one [k] that
    carries it (so [j ≤ k], and never [i]), and among the definitions to
    update or to create exactly one has that [Id], the one at [k].  The
    entry at [i] gives rise to no operation of its own. *)
Theorem Sync_plan_last_duplicate_wins ou od oc apis apiDefs i j di dj :
  i < j →
  apiDefs !! i = Some di →
  apiDefs !! j = Some dj →
  Id di = Id dj →
  ∃ p k dk,
    plan ou od oc apis apiDefs = Some p
    ∧ GitIDMap apiDefs !! Hex (Id di) = Some k
    ∧ (j ≤ k)%nat
    ∧ apiDefs !! k = Some dk
    ∧ Id dk = Id di
    ∧ filter (λ def, Id def = Id di) (updateAPIs p ++ createAPIs p) = [dk]
    ∧ (dk ≠ di → di ∉ updateAPIs p ++ createAPIs p).
Proof.
  intros Hij Hi Hj Hid.
  destruct (exists_last_with_Id apiDefs di) as (k & dk & Hk & Hlast & Hdk).
  { by eapply list_elem_of_lookup_2. }
  eexists _, k, dk. split; [apply plan_run|].
  cbn [updateAPIs createAPIs].
  assert (Hjk : (j ≤ k)%nat).
  { destruct (decide (j ≤ k)%nat) as [|Hn]; [done|].
    destruct Hlast as [_ Hlater].
    destruct (Hlater j dj); [lia | done | congruence]. }
  assert (Hone : filter (λ def, Id def = Id di)
            (omap (pick apiDefs (present (DashIDMap apis)))
               (range ou (GitIDMap apiDefs)) ++
             omap (pick apiDefs (λ key, negb (present (DashIDMap apis) key)))
               (range oc (GitIDMap apiDefs))) = [dk]).
  { rewrite <- Hdk, filter_app, !(filter_pick_range _ _ _ k dk) by done.
    by destruct (present (DashIDMap apis) (Hex (Id dk))). }
  split_and!; [done | done | apply Hlast | done | done |].
  intros Hne Hin.
  assert (di ∈ [dk]) as Hbad.
  { rewrite <- Hone. by apply list_elem_of_filter. }
  apply list_elem_of_singleton in Hbad. by destruct Hne.
Qed.

(** * Facts about the apply phase *)

Section ApplyPhase.

Context `{Collaborators}.

Implicit Types (c : Client) (s : State) (p : loc).

Lemma fresh_cell s : heap s !! fresh (dom (heap s)) = None.
Proof. apply not_elem_of_dom, is_fresh. Qed.

Lemma loadAll_run (ps : list loc) s :
  (∀ p, p ∈ ps → is_Some (heap s !! p)) →
  ∃ defs, loadAll ps s = Some (defs, s).
Proof.
  induction ps as [|p rest IH]; intros Hall; [by eexists|].
  destruct (Hall p) as [d Hd]; [left|].
  destruct IH as [defs Hdefs]; [intros q Hq; apply Hall; by right|].
  exists (d :: defs). cbn [loadAll]. unfold bind, load, ret.
  by rewrite Hd, Hdefs.
Qed.

(** Every pass of a loop body returns, and keeps all the cells that were
    there: the only cell written is the one made for the loop variable. *)
Lemma exec_run c op s :
  ∃ res s', exec c op s = Some (res, s') ∧ heap s ⊆ heap s'.
Proof.
  destruct op as [dbId|elem|elem]; cbn [exec]; unfold bind, Printf, emit.
  - edestruct (deleteAPI_run c dbId) as (res & s' & E & Hh & _).
    exists res, s'. split; [exact E|]. by rewrite Hh.
  - unfold new, load. cbn [heap]. rewrite lookup_insert_eq.
    edestruct (UpdateAPI_run c (fresh (dom (heap s)))) as
      (res & s' & d' & E & Hh & _); [|exists res, s'; split; [exact E|]].
    { cbn [heap]. apply lookup_insert_eq. }
    rewrite Hh. cbn [heap]. rewrite insert_insert_eq.
    apply insert_subseteq, fresh_cell.
  - unfold new, load. cbn [heap]. rewrite lookup_insert_eq.
    edestruct (CreateAPI_run c (fresh (dom (heap s)))) as
      (res & s' & E & Hh & _); [|rewrite E].
    { cbn [heap]. apply lookup_insert_eq. }
    assert (heap s ⊆ heap s') as Hsub.
    { rewrite Hh. cbn [heap]. apply insert_subseteq, fresh_cell. }
    destruct res as [id [e|]]; unfold ret; eauto.
Qed.

Lemma doDeletes_cons c dbId rest s :
  doDeletes c (dbId :: rest) s
  = match exec c (OpDelete dbId) s with
    | Some (Some e, s1) => Some (Some e, s1)
    | Some (None, s1) => doDeletes c rest s1
    | None => None
    end.
Proof.
  cbn [doDeletes exec]. unfold bind, Printf, emit, ret.
  by destruct (deleteAPI _ _ _) as [[[e|] s1]|].
Qed.

Lemma doUpdates_cons c elem rest s :
  doUpdates c (elem :: rest) s
  = match exec c (OpUpdate elem) s with
    | Some (Some e, s1) => Some (Some e, s1)
    | Some (None, s1) => doUpdates c rest s1
    | None => None
    end.
Proof.
  cbn [doUpdates exec]. unfold bind, new, load. cbn [heap].
  rewrite lookup_insert_eq. unfold Printf, emit, ret.
  by destruct (UpdateAPI _ _ _) as [[[e|] s1]|].
Qed.

Lemma doCreates_cons c elem rest s :
  doCreates c (elem :: rest) s
  = match exec c (OpCreate elem) s with
    | Some (Some e, s1) => Some (Some e, s1)
    | Some (None, s1) => doCreates c rest s1
    | None => None
    end.
Proof.
  cbn [doCreates exec]. unfold bind, new, load. cbn [heap].
  rewrite lookup_insert_eq. unfold Printf, emit, ret.
  by destruct (CreateAPI _ _ _) as [[[id [e|]] s1]|].
Qed.

(** A loop that runs its body over a list and leaves at the first error. *)
Lemma loop_Runs {A} (loop : list A → M (option error)) (mk : A → Op) c :
  (∀ s, loop [] s = Some (None, s)) →
  (∀ x rest s,
     loop (x :: rest) s
     = match exec c (mk x) s with
       | Some (Some e, s1) => Some (Some e, s1)
       | Some (None, s1) => loop rest s1
       | None => None
       end) →
  ∀ xs s, ∃ res s', loop xs s = Some (res, s') ∧ Runs c s (mk <$> xs) res s'.
Proof.
  intros Hnil Hcons xs. induction xs as [|x rest IH]; intros s.
  - exists None, s. split; [apply Hnil | constructor].
  - destruct (exec_run c (mk x) s) as ([e|] & s1 & E & _).
    + exists (Some e), s1. rewrite Hcons, E. split; [done|].
      by apply Runs_abort.
    + destruct (IH s1) as (res & s' & El & Hr).
      exists res, s'. rewrite Hcons, E. split; [done|].
      by eapply Runs_next.
Qed.

Lemma Runs_app c s ops1 s1 ops2 res s' :
  Runs c s ops1 None s1 → Runs c s1 ops2 res s' →
  Runs c s (ops1 ++ ops2) res s'.
Proof.
  intros H1. remember None as r eqn:Hr. revert Hr.
  induction H1 as [s|s op s0 ops r s1 E _ IH|]; intros Hr H2; [done| |done].
  cbn. eapply Runs_next; [exact E|]. by apply IH.
Qed.

Lemma Runs_app_abort c s ops1 e s' ops2 :
  Runs c s ops1 (Some e) s' → Runs c s (ops1 ++ ops2) (Some e) s'.
Proof.
  intros H1. remember (Some e) as r eqn:Hr. revert Hr.
  induction H1 as [s|s op s0 ops r s1 E _ IH|s op e' s1 ops E];
    intros Hr; [done | |].
  - cbn. eapply Runs_next; [exact E|]. by apply IH.
  - injection Hr as ->. cbn. by apply Runs_abort.
Qed.

Lemma Runs_heap c s ops res s' : Runs c s ops res s' → heap s ⊆ heap s'.
Proof.
  induction 1 as [s|s op s1 ops r s' E _ IH|s op e s' ops E]; [done | |].
  - destruct (exec_run c op s) as (r0 & s0 & E0 & Hsub).
    rewrite E in E0. simplify_eq. by etrans.
  - destruct (exec_run c op s) as (r0 & s0 & E0 & Hsub).
    rewrite E in E0. by simplify_eq.
Qed.

(** A run that ends in an error: the operations before the failing one all
    succeeded, and the final state is the one the failing operation left. *)
Lemma Runs_failure c s ops e s' :
  Runs c s ops (Some e) s' →
  ∃ before op rest s0,
    ops = before ++ op :: rest
    ∧ Runs c s before None s0
    ∧ exec c op s0 = Some (Some e, s').
Proof.
  intros H1. remember (Some e) as r eqn:Hr. revert Hr.
  induction H1 as [s|s op s1 ops r s' E _ IH|s op e' s' ops E];
    intros Hr; [done | |].
  - destruct (IH Hr) as (before & op' & rest & s0 & -> & Hd & Ef).
    exists (op :: before), op', rest, s0. split_and!; [done | | done].
    by eapply Runs_next.
  - injection Hr as ->. exists [], op, ops, s.
    split_and!; [done | constructor | done].
Qed.

Lemma applyPlan_Runs c (pl : Plan) s :
  ∃ res s', applyPlan c pl s = Some (res, s')
            ∧ Runs c s (operations pl) res s'.
Proof.
  unfold applyPlan, operations, bind, ret.
  destruct (loop_Runs (doDeletes c) OpDelete c (λ _, eq_refl)
              (doDeletes_cons c) (deleteAPIs pl) s) as (r1 & s1 & E1 & R1).
  rewrite E1. destruct r1 as [e|].
  { exists (Some e), s1. split; [done|]. by apply Runs_app_abort. }
  destruct (loop_Runs (doUpdates c) OpUpdate c (λ _, eq_refl)
              (doUpdates_cons c) (updateAPIs pl) s1) as (r2 & s2 & E2 & R2).
  rewrite E2. destruct r2 as [e|].
  { exists (Some e), s2. split; [done|].
    eapply Runs_app; [exact R1|]. by apply Runs_app_abort. }
  destruct (loop_Runs (doCreates c) OpCreate c (λ _, eq_refl)
              (doCreates_cons c) (createAPIs pl) s2) as (r3 & s3 & E3 & R3).
  exists r3, s3. split; [done|].
  eapply Runs_app; [exact R1|]. eapply Runs_app; [exact R2 | exact R3].
Qed.

End ApplyPhase.

Lemma plan_total ou od oc apis apiDefs :
  ∃ pl, plan ou od oc apis apiDefs = Some pl.
Proof. eexists. apply plan_run. Qed.

(** * The claims about Sync *)

Section SyncClaims.

Context `{Collaborators}.

Implicit Types (c : Client) (s : State) (p : loc).

(** C3.  Once the listing is fetched, [Sync] computes its plan and attempts
    the operations in one fixed sequence: the deletes, then the updates,
    then the creates.  It returns what that run returns.  When the result is
    an error, it is the error of one operation of the sequence; the
    operations before it succeeded and keep their effects, and the state
    [Sync] ends in is the state that operation left: nothing after it is
    attempted and nothing is undone. *)
Theorem Sync_applies_in_order ou od oc c apiDefs s apis s1 :
  fetchAPIs c s = Some (inr apis, s1) →
  (∀ p, p ∈ apiDefs → is_Some (heap s !! p)) →
  ∃ defs pl res s',
    loadAll apiDefs s1 = Some (defs, s1)
    ∧ plan ou od oc (Apis apis) defs = Some pl
    ∧ Sync ou od oc c apiDefs s = Some (res, s')
    ∧ Runs c s1 ((OpDelete <$> deleteAPIs pl) ++ (OpUpdate <$> updateAPIs pl)
                   ++ (OpCreate <$> createAPIs pl)) res s'
    ∧ (∀ e, res = Some e →
         ∃ before op rest s0,
           (OpDelete <$> deleteAPIs pl) ++ (OpUpdate <$> updateAPIs pl)
             ++ (OpCreate <$> createAPIs pl) = before ++ op :: rest
           ∧ Runs c s1 before None s0
           ∧ exec c op s0 = Some (Some e, s')).
Proof.
  intros Ef Hvalid. destruct (fetchAPIs_inv _ _ _ _ Ef) as [Hh _].
  destruct (loadAll_run apiDefs s1) as [defs Hl].
  { intros p Hp. rewrite Hh. by apply Hvalid. }
  destruct (plan_total ou od oc (Apis apis) defs) as [pl Hpl].
  destruct (applyPlan_Runs c pl s1) as (res & s' & Ea & Hr).
  exists defs, pl, res, s'. split_and!.
  - done.
  - done.
  - unfold Sync, bind. by rewrite Ef, Hl, Hpl.
  - exact Hr.
  - intros e ->. by apply Runs_failure.
Qed.

(** C9.  [Sync] returns whenever the caller's slice is valid, and every cell
    that existed before the call, so every element of that slice, holds
    afterwards what it held before: the backfill of [UpdateAPI] lands in
    the cell of the loop variable. *)
Theorem Sync_leaves_caller_slice ou od oc c apiDefs s :
  (∀ p, p ∈ apiDefs → is_Some (heap s !! p)) →
  ∃ res s', Sync ou od oc c apiDefs s = Some (res, s')
            ∧ (∀ p d, heap s !! p = Some d → heap s' !! p = Some d)
            ∧ (∀ p, p ∈ apiDefs → heap s' !! p = heap s !! p).
Proof.
  intros Hvalid.
  assert (Hkeep : ∀ s', heap s ⊆ heap s' →
    (∀ p d, heap s !! p = Some d → heap s' !! p = Some d)
    ∧ (∀ p, p ∈ apiDefs → heap s' !! p = heap s !! p)).
  { intros s' Hsub. split.
    - intros p d Hp. by eapply lookup_weaken.
    - intros p Hp. destruct (Hvalid p Hp) as [d Hd]. rewrite Hd.
      by eapply lookup_weaken. }
  destruct (fetchAPIs_run c s) as ([err|apis] & s1 & Ef & Hh & _).
  - exists (Some err), s1. unfold Sync, bind, ret. rewrite Ef.
    split; [done|]. apply Hkeep. by rewrite Hh.
  - destruct (loadAll_run apiDefs s1) as [defs Hl].
    { intros p Hp. rewrite Hh. by apply Hvalid. }
    destruct (plan_total ou od oc (Apis apis) defs) as [pl Hpl].
    destruct (applyPlan_Runs c pl s1) as (res & s' & Ea & Hr).
    exists res, s'. unfold Sync, bind. rewrite Ef, Hl, Hpl.
    split; [exact Ea|]. apply Hkeep. rewrite <- Hh. by eapply Runs_heap.
Qed.

End SyncClaims.

(** * The theorems at work on the example dashboards *)

Example Hex_c : Hex "c" = "63".
Proof. reflexivity. Qed.

(** A renamed definition is updated, an unknown one created. *)
Example plan_update_and_create :
  plan rangeSorted rangeSorted rangeSorted [recordA] [defA_renamed; defB]
  = Some {| deleteAPIs := []; updateAPIs := [defA_renamed];
            createAPIs := [defB] |}.
Proof. vm_compute. reflexivity. Qed.

(** A remote record nobody asks for is deleted, under the hex form of its
    identifier. *)
Example plan_delete :
  plan rangeSorted rangeSorted rangeSorted [recordA; recordC] [defA_renamed]
  = Some {| deleteAPIs := ["63"]; updateAPIs := [defA_renamed];
            createAPIs := [] |}.
Proof. vm_compute. reflexivity. Qed.

(** One run of [Sync]: the delete, the update with its backfilled body, then
    the create, which the uniqueness scan refuses because the listing is not
    empty. *)
Example Sync_run :
  ∃ s', Sync (H := dashAC) rangeSorted rangeSorted rangeSorted client0 [0; 1]
          (start (H := dashAC) tt [defA_renamed; defB])
        = Some (Some UseUpdateError, s')
        ∧ trace s'
          = [Sent (listRequest (H := dashAC) client0);
             Printed "SYNC Deleting: %v\n" [ArgString "63"];
             Sent (deleteRequest (H := dashAC) client0 "63");
             Printed "SYNC Updating: %v\n" [ArgString "61"];
             Sent (listRequest (H := dashAC) client0);
             Sent (updateRequest (H := dashAC) client0
                     (setAPIID defA_renamed "x"));
             Printed "SYNC Creating: %v\n" [ArgString "B"];
             Sent (listRequest (H := dashAC) client0)]
        ∧ heap s' !! 0 = Some defA_renamed
        ∧ heap s' !! 1 = Some defB.
Proof. eexists. split; [vm_compute; reflexivity|]. by vm_compute. Qed.

Lemma valid_two_cells `{Collaborators} (srv : Server) (d0 d1 : APIDefinition) :
  ∀ p : loc, p ∈ [0; 1] → is_Some (heap (start srv [d0; d1]) !! p).
Proof.
  intros p Hp.
  apply elem_of_cons in Hp as [-> | Hp]; [by eexists|].
  apply elem_of_cons in Hp as [-> | Hp]; [by eexists|].
  by apply elem_of_nil in Hp.
Defined.

Lemma UpdateAPI_backfills_APIID_witness :
  ∃ pre api post res s' req body,
    Apis listingA = pre ++ api :: post
    ∧ (∀ r, r ∈ pre → Id (APIDef r) ≠ Id defA_renamed)
    ∧ Id (APIDef api) = Id defA_renamed
    ∧ UpdateAPI (H := dashA) client0 0 (start (H := dashA) tt [defA_renamed])
      = Some (res, s')
    ∧ trace s' = trace (start (H := dashA) tt [defA_renamed])
                 ++ [Sent (listRequest (H := dashA) client0); Sent req]
    ∧ method req = PUT
    ∧ JSON (options req) = Some body
    ∧ heap s' !! 0 = Some (APIDef body)
    ∧ (APIID defA_renamed = EmptyString →
       APIDef body = setAPIID defA_renamed (APIID (APIDef api))
       ∧ APIID (APIDef body) = APIID (APIDef api))
    ∧ (APIID defA_renamed ≠ EmptyString → APIDef body = defA_renamed)
    ∧ (NoDup ((λ x, Id (APIDef x)) <$> Apis listingA) →
       ∀ x, x ∈ Apis listingA → Id (APIDef x) = Id defA_renamed → x = api).
Proof.
  eapply (UpdateAPI_backfills_APIID (H := dashA) client0 0
            (start (H := dashA) tt [defA_renamed]) defA_renamed listingA).
  - reflexivity.
  - reflexivity.
  - exists recordA. split; [left | reflexivity].
Defined.

Lemma UpdateAPI_absent_record_witness :
  ((∀ api, api ∈ Apis listingA → Id (APIDef api) ≠ Id defB) →
   ∃ s1, UpdateAPI (H := dashA) client0 0 (start (H := dashA) tt [defB])
         = Some (Some UseCreateError, s1)
         ∧ ∃ evs, trace s1 = trace (start (H := dashA) tt [defB]) ++ evs
                  ∧ writes evs = [])
  ∧ (∀ res s' evs req,
       UpdateAPI (H := dashA) client0 0 (start (H := dashA) tt [defB])
       = Some (res, s') →
       trace s' = trace (start (H := dashA) tt [defB]) ++ evs →
       req ∈ writes evs →
       ∃ api, api ∈ Apis listingA ∧ Id (APIDef api) = Id defB).
Proof.
  destruct (UpdateAPI_absent_record (H := dashA) client0 0
              (start (H := dashA) tt [defB]) defB listingA _
              eq_refl eq_refl) as [Hnone Honly].
  split; [|exact Honly]. intros Hall. eexists. exact (Hnone Hall).
Defined.

Lemma payloads_have_hook_references_witness :
  (∀ def, HookReferences def = None →
          HookReferences (fixDBDef def) = Some []
          ∧ APIDef (fixDBDef def) = APIDef def)
  ∧ (∃ res s' evs,
       CreateAPI (H := dashEmpty) client0 0 (start (H := dashEmpty) tt [defA])
       = Some (res, s')
       ∧ trace s' = trace (start (H := dashEmpty) tt [defA]) ++ evs
       ∧ ∀ body, body ∈ payloads evs → HookReferences body = Some [])
  ∧ (∃ res s' evs,
       UpdateAPI (H := dashEmpty) client0 0 (start (H := dashEmpty) tt [defA])
       = Some (res, s')
       ∧ trace s' = trace (start (H := dashEmpty) tt [defA]) ++ evs
       ∧ ∀ body, body ∈ payloads evs → HookReferences body = Some []).
Proof.
  apply (payloads_have_hook_references (H := dashEmpty) client0 0
           (start (H := dashEmpty) tt [defA]) defA).
  reflexivity.
Defined.

Lemma UpdateAPI_Id_decides_match_witness :
  (∃ s2, updateScan (H := dashA) (Apis listingA) 0
           (listed (H := dashA) tt [defA_renamed])
         = Some (true, s2))
  ∧ ∃ res s' req,
      UpdateAPI (H := dashA) client0 0 (start (H := dashA) tt [defA_renamed])
      = Some (res, s')
      ∧ res ≠ Some UseCreateError
      ∧ trace s' = trace (start (H := dashA) tt [defA_renamed])
                   ++ [Sent (listRequest (H := dashA) client0); Sent req]
      ∧ method req = PUT
      ∧ target req
        = urljoin (Collaborators := dashA)
            [url client0; endpointAPIs; Hex (Id defA_renamed)].
Proof.
  apply (UpdateAPI_Id_decides_match (H := dashA) client0 0
           (start (H := dashA) tt [defA_renamed]) defA_renamed listingA _
           recordA).
  - reflexivity.
  - reflexivity.
  - left.
  - reflexivity.
  - discriminate.
Defined.

Lemma Sync_plan_last_duplicate_wins_witness :
  ∃ p k dk,
    plan rangeSorted rangeSorted rangeSorted [recordA] [defA; defA_renamed]
    = Some p
    ∧ GitIDMap [defA; defA_renamed] !! Hex (Id defA) = Some k
    ∧ (1 ≤ k)%nat
    ∧ [defA; defA_renamed] !! k = Some dk
    ∧ Id dk = Id defA
    ∧ filter (λ def, Id def = Id defA) (updateAPIs p ++ createAPIs p) = [dk]
    ∧ (dk ≠ defA → defA ∉ updateAPIs p ++ createAPIs p).
Proof.
  apply (Sync_plan_last_duplicate_wins rangeSorted rangeSorted rangeSorted
           [recordA] [defA; defA_renamed] 0 1 defA defA_renamed).
  - lia.
  - reflexivity.
  - reflexivity.
  - reflexivity.
Defined.

Lemma Sync_applies_in_order_witness :
  ∃ defs pl res s',
    loadAll (H := dashAC) [0; 1]
      (listed (H := dashAC) tt [defA_renamed; defB])
    = Some (defs, listed (H := dashAC) tt [defA_renamed; defB])
    ∧ plan rangeSorted rangeSorted rangeSorted (Apis listingAC) defs = Some pl
    ∧ Sync (H := dashAC) rangeSorted rangeSorted rangeSorted client0 [0; 1]
        (start (H := dashAC) tt [defA_renamed; defB])
      = Some (res, s')
    ∧ Runs (H := dashAC) client0
        (listed (H := dashAC) tt [defA_renamed; defB])
        ((OpDelete <$> deleteAPIs pl) ++ (OpUpdate <$> updateAPIs pl)
           ++ (OpCreate <$> createAPIs pl)) res s'
    ∧ (∀ e, res = Some e →
         ∃ before op rest s0,
           (OpDelete <$> deleteAPIs pl) ++ (OpUpdate <$> updateAPIs pl)
             ++ (OpCreate <$> createAPIs pl) = before ++ op :: rest
           ∧ Runs (H := dashAC) client0
               (listed (H := dashAC) tt [defA_renamed; defB])
               before None s0
           ∧ exec (H := dashAC) client0 op s0 = Some (Some e, s')).
Proof.
  apply (Sync_applies_in_order (H := dashAC) rangeSorted rangeSorted
           rangeSorted client0 [0; 1]
           (start (H := dashAC) tt [defA_renamed; defB]) listingAC).
  - reflexivity.
  - apply valid_two_cells.
Defined.

Lemma Sync_leaves_caller_slice_witness :
  ∃ res s',
    Sync (H := dashAC) rangeSorted rangeSorted rangeSorted client0 [0; 1]
      (start (H := dashAC) tt [defA_renamed; defB])
    = Some (res, s')
    ∧ (∀ p d, heap (start (H := dashAC) tt [defA_renamed; defB]) !! p = Some d →
              heap s' !! p = Some d)
    ∧ (∀ p, p ∈ [0; 1] →
            heap s' !! p
            = heap (start (H := dashAC) tt [defA_renamed; defB]) !! p).
Proof.
  apply (Sync_leaves_caller_slice (H := dashAC) rangeSorted rangeSorted
           rangeSorted client0 [0; 1]
           (start (H := dashAC) tt [defA_renamed; defB])).
  apply valid_two_cells.
Defined.

(** * Further properties of the single-record operations *)

(** Closes the side conditions left once the outcome of a call is known. *)
Local Ltac settle :=
  repeat split; intros;
  repeat match goal with
         | H : ∃ _, _ |- _ => destruct H
         | H : _ ∧ _ |- _ => destruct H
         end;
  simplify_eq; try done; try congruence; eauto 10.

Section Outcomes.

Context `{Collaborators}.

Implicit Types (c : Client) (s : State) (p : loc).

(** X1.  The three ways the listing request fails: the transport fails,
    the answer is not a 200, or its body does not decode.  In each of them
    [CreateAPI], [UpdateAPI] and [Sync] return that failure's own error
    (the transport's, the message quoting the body of the answer, the
    decoder's) in the state the GET left: nothing is read through a
    pointer, nothing else is sent, nothing is printed, no definition
    changes. *)
Theorem failed_listing_aborts ou od oc c p apiDefs s r srv err :
  serve (listRequest c) (remote s) = (r, srv) →
  ((∃ msg, r = inl msg ∧ err = ExternalError msg)
   ∨ (∃ resp, r = inr resp ∧ StatusCode resp ≠ 200%Z
              ∧ err = Errorf "API Returned error: %v"
                        [ArgString (Body resp)])
   ∨ (∃ resp msg, r = inr resp ∧ StatusCode resp = 200%Z
                  ∧ decodeAPIS (Body resp) = inl msg
                  ∧ err = ExternalError msg)) →
  CreateAPI c p s
  = Some ((EmptyString, Some err), answered s (listRequest c) srv)
  ∧ UpdateAPI c p s = Some (Some err, answered s (listRequest c) srv)
  ∧ Sync ou od oc c apiDefs s
    = Some (Some err, answered s (listRequest c) srv).
Proof.
  intros Es Hfail.
  assert (Ef : fetchAPIs c s
               = Some (inl err, answered s (listRequest c) srv)).
  { unfold fetchAPIs, bind, send, ret, answered.
    unfold listRequest in Es. rewrite Es. cbn.
    destruct Hfail as [(msg & -> & ->)
                      | [(resp & -> & Hc & ->)
                        | (resp & msg & -> & Hc & Hd & ->)]].
    - reflexivity.
    - by case_decide.
    - case_decide; [done|]. by rewrite Hd. }
  split_and!.
  - unfold CreateAPI, bind, ret. by rewrite Ef.
  - unfold UpdateAPI, bind, ret. by rewrite Ef.
  - unfold Sync, bind, ret. by rewrite Ef.
Qed.

(** X2.  With an empty listing [CreateAPI] sends the POST and leaves the
    definition alone.  It succeeds exactly when the answer has status 200
    and decodes to an envelope whose status is OK, and then returns the
    envelope's [Meta]; in every other case the identifier is empty, and a
    non-200 answer gives the error that quotes the body and the code,
    whatever the body holds. *)
Theorem CreateAPI_outcome c p s d apis s1 r srv :
  fetchAPIs c s = Some (inr apis, s1) →
  heap s !! p = Some d →
  Apis apis = [] →
  serve (createRequest c d) (remote s1) = (r, srv) →
  ∃ id err s',
    CreateAPI c p s = Some ((id, err), s')
    ∧ heap s' = heap s
    ∧ remote s' = srv
    ∧ trace s' = trace s1 ++ [Sent (createRequest c d)]
    ∧ (err = None ↔
       ∃ resp status, r = inr resp ∧ StatusCode resp = 200%Z
                      ∧ decodeStatus (Body resp) = inr status
                      ∧ Status status = "OK" ∧ id = Meta status)
    ∧ (err ≠ None → id = EmptyString)
    ∧ (∀ resp, r = inr resp → StatusCode resp ≠ 200%Z →
         err = Some (Errorf "API Returned error: %v (code: %v)"
                       [ArgString (Body resp); ArgInt (StatusCode resp)])).
Proof.
  intros Ef Hp He Es. destruct (fetchAPIs_inv _ _ _ _ Ef) as [Hh _].
  unfold CreateAPI, bind, load, ret, send. unfold createRequest in Es.
  rewrite Ef, Hh, Hp, He. cbn [createScan]. rewrite Es.
  destruct r as [msg|resp]; cbn.
  { eexists _, _, _. split; [reflexivity|]. settle. }
  case_decide as Hc.
  { eexists _, _, _. split; [reflexivity|]. settle. }
  destruct (decodeStatus (Body resp)) as [msg|status] eqn:Hd.
  { eexists _, _, _. split; [reflexivity|]. settle. }
  case_decide as Hst.
  { eexists _, _, _. split; [reflexivity|]. settle. }
  eexists _, _, _. split; [reflexivity|].
  try apply dec_stable in Hc. try apply dec_stable in Hst.
  settle.
Qed.


(** X3.  With a record of the definition's [Id] listed, [UpdateAPI] sends
    the PUT for the backfilled definition, and the caller's cell holds that
    backfilled definition whatever the answer.  It succeeds exactly when
    the answer has status 200 and decodes to an envelope whose status is
    OK; a transport failure, a non-200 answer and an undecodable body each
    give their own error. *)
Theorem UpdateAPI_outcome c p s d apis s1 api r srv :
  fetchAPIs c s = Some (inr apis, s1) →
  heap s !! p = Some d →
  matched (Apis apis) (Id d) = Some api →
  serve (updateRequest c (backfill d api)) (remote s1) = (r, srv) →
  ∃ err s',
    UpdateAPI c p s = Some (err, s')
    ∧ heap s' = <[p := backfill d api]> (heap s)
    ∧ remote s' = srv
    ∧ trace s' = trace s1 ++ [Sent (updateRequest c (backfill d api))]
    ∧ (err = None ↔
       ∃ resp status, r = inr resp ∧ StatusCode resp = 200%Z
                      ∧ decodeStatus (Body resp) = inr status
                      ∧ Status status = "OK")
    ∧ (∀ msg, r = inl msg → err = Some (ExternalError msg))
    ∧ (∀ resp, r = inr resp → StatusCode resp ≠ 200%Z →
         err = Some (Errorf "API Returned error: %v"
                       [ArgString (Body resp)]))
    ∧ (∀ resp msg, r = inr resp → StatusCode resp = 200%Z →
         decodeStatus (Body resp) = inl msg →
         err = Some (ExternalError msg)).
Proof.
  intros Ef Hp Hm Es. destruct (fetchAPIs_inv _ _ _ _ Ef) as [Hh _].
  rewrite <- Hh in Hp.
  pose proof (updateScan_run (Apis apis) p s1 d Hp) as Hs.
  rewrite Hm in Hs. destruct Hs as (s2 & Hs & Hh2 & Hr2 & Ht2).
  unfold UpdateAPI, bind. rewrite Ef, Hs. cbn [negb].
  unfold load. rewrite Hh2, lookup_insert_eq.
  unfold send, ret. unfold updateRequest in Es. rewrite Hr2, Es, Ht2, Hh2, Hh.
  destruct r as [msg|resp]; cbn.
  { eexists _, _. split; [reflexivity|]. settle. }
  case_decide as Hc.
  { eexists _, _. split; [reflexivity|]. settle. }
  destruct (decodeStatus (Body resp)) as [msg|status] eqn:Hd.
  { eexists _, _. split; [reflexivity|]. settle. }
  case_decide as Hst.
  { eexists _, _. split; [reflexivity|]. settle. }
  eexists _, _. split; [reflexivity|].
  try apply dec_stable in Hc. try apply dec_stable in Hst.
  settle.
Qed.

(** X4.  [deleteAPI] always sends one DELETE, to the resource path followed
    by the identifier, and touches no definition.  It succeeds exactly when
    the answer has status 200; a transport failure is handed up, a non-200
    answer gives the error that quotes its body. *)
Theorem deleteAPI_outcome c id s r srv :
  serve (deleteRequest c id) (remote s) = (r, srv) →
  ∃ err s',
    deleteAPI c id s = Some (err, s')
    ∧ heap s' = heap s
    ∧ remote s' = srv
    ∧ trace s' = trace s ++ [Sent (deleteRequest c id)]
    ∧ target (deleteRequest c id) = urljoin [url c; endpointAPIs; id]
    ∧ (err = None ↔ ∃ resp, r = inr resp ∧ StatusCode resp = 200%Z)
    ∧ (∀ msg, r = inl msg → err = Some (ExternalError msg))
    ∧ (∀ resp, r = inr resp → StatusCode resp ≠ 200%Z →
         err = Some (Errorf "API Returned error: %v"
                       [ArgString (Body resp)])).
Proof.
  intros Es. unfold deleteAPI, bind, send, ret.
  unfold deleteRequest in Es. rewrite Es.
  destruct r as [msg|resp]; cbn.
  { eexists _, _. split; [reflexivity|]. settle. }
  case_decide as Hc.
  { eexists _, _. split; [reflexivity|]. settle. }
  eexists _, _. split; [reflexivity|].
  try apply dec_stable in Hc. settle.
Qed.

(** X5.  Whatever the dashboard answers, [UpdateAPI] changes no cell but
    the one it is pointed at, and in that cell nothing but the [APIID]: a
    non-empty [APIID] stays, and so does the whole definition when the
    call answers [UseCreateError]. *)
Theorem UpdateAPI_touches_only_APIID c p s d :
  heap s !! p = Some d →
  ∃ res s' d',
    UpdateAPI c p s = Some (res, s')
    ∧ heap s' !! p = Some d'
    ∧ (∀ q, q ≠ p → heap s' !! q = heap s !! q)
    ∧ Id d' = Id d ∧ Name d' = Name d ∧ Slug d' = Slug d
    ∧ Proxy d' = Proxy d
    ∧ (APIID d ≠ EmptyString → d' = d)
    ∧ (res = Some UseCreateError → d' = d).
Proof.
  intros Hp.
  destruct (fetchAPIs_run c s) as ([err|apis] & s1 & Ef & Hh & Ht).
  - exists (Some err), s1, d. unfold UpdateAPI, bind, ret. rewrite Ef.
    split_and!; try done; [by rewrite Hh | intros q _; by rewrite Hh].
  - destruct (matched (Apis apis) (Id d)) as [api|] eqn:Hm.
    + destruct (UpdateAPI_matched _ _ _ _ _ _ _ Ef Hp Hm)
        as (res & s' & E & Hne & Hh' & _).
      exists res, s', (backfill d api). rewrite Hh'.
      split_and!; try done.
      * apply lookup_insert_eq.
      * intros q Hq. by apply lookup_insert_ne.
      * apply backfill_Id.
      * unfold backfill. by case_decide.
      * unfold backfill. by case_decide.
      * unfold backfill. by case_decide.
      * intros Hne'. unfold backfill. by case_decide.
    + exists (Some UseCreateError), s1, d.
      rewrite (UpdateAPI_unmatched _ _ _ _ _ _ Ef Hp Hm).
      split_and!; try done; [by rewrite Hh | intros q _; by rewrite Hh].
Qed.

(** X6.  [CreateAPI] never writes to the definition it is pointed at.  It
    sends at most one write, the POST of that definition to the resource
    path, and none at all when it answers [UseUpdateError]. *)
Theorem CreateAPI_reads_only c p s d :
  heap s !! p = Some d →
  ∃ res s' evs,
    CreateAPI c p s = Some (res, s')
    ∧ heap s' = heap s
    ∧ trace s' = trace s ++ evs
    ∧ (writes evs = [] ∨ writes evs = [createRequest c d])
    ∧ (snd res = Some UseUpdateError → writes evs = []).
Proof.
  intros Hp.
  destruct (fetchAPIs_run c s) as ([err|apis] & s1 & Ef & Hh & Ht).
  - exists (EmptyString, Some err), s1, [Sent (listRequest c)].
    unfold CreateAPI, bind, ret. rewrite Ef. split_and!; try done. by left.
  - destruct (Apis apis) as [|a rest] eqn:Hl.
    + destruct (CreateAPI_empty_listing _ _ _ _ _ _ Ef Hp Hl)
        as (res & s' & E & Hne & Hh' & Ht').
      exists res, s', [Sent (listRequest c); Sent (createRequest c d)].
      split_and!; try done.
      * by rewrite Ht', Ht, <- app_assoc.
      * by right.
    + exists (EmptyString, Some UseUpdateError), s1, [Sent (listRequest c)].
      split_and!; try done; [|by left].
      eapply CreateAPI_nonempty_listing; [done | done |]. by rewrite Hl.
Qed.

End Outcomes.

(** * Further properties of the apply phase *)

Section Wire.

Context `{Collaborators}.

Implicit Types (c : Client) (s : State) (p : loc).

Lemma fromClient_list c : fromClient c (listRequest c).
Proof. split; [done | by left]. Qed.

Lemma fromClient_create c d : fromClient c (createRequest c d).
Proof. split; [done | by left]. Qed.

Lemma fromClient_update c d : fromClient c (updateRequest c d).
Proof. split; [done | right; by eexists]. Qed.

Lemma fromClient_delete c id : fromClient c (deleteRequest c id).
Proof. split; [done | right; by eexists]. Qed.

(** The listing request answered with a 200 and a decodable body. *)
Lemma fetchAPIs_ok c s resp srv apis :
  serve (listRequest c) (remote s) = (inr resp, srv) →
  StatusCode resp = 200%Z →
  decodeAPIS (Body resp) = inr apis →
  fetchAPIs c s
  = Some (inr apis, {| heap := heap s; remote := srv;
                       trace := trace s ++ [Sent (listRequest c)] |}).
Proof.
  intros Es Hc Hd. unfold fetchAPIs, bind, send, ret.
  unfold listRequest in Es. rewrite Es. cbn.
  case_decide; [done|]. by rewrite Hd.
Qed.

(** A successful [UpdateAPI] has sent its PUT, a successful [CreateAPI] its
    POST. *)
Lemma UpdateAPI_sent c p s d :
  heap s !! p = Some d →
  ∃ res s' d',
    UpdateAPI c p s = Some (res, s')
    ∧ ((trace s' = trace s ++ [Sent (listRequest c)] ∧ res ≠ None)
       ∨ trace s' = trace s ++ [Sent (listRequest c);
                                Sent (updateRequest c d')]).
Proof.
  intros Hp.
  destruct (fetchAPIs_run c s) as ([err|apis] & s1 & Ef & Hh & Ht).
  - exists (Some err), s1, d. unfold UpdateAPI, bind, ret. rewrite Ef.
    split; [done|]. by left.
  - destruct (matched (Apis apis) (Id d)) as [api|] eqn:Hm.
    + destruct (UpdateAPI_matched _ _ _ _ _ _ _ Ef Hp Hm)
        as (res & s' & E & _ & _ & Ht').
      exists res, s', (backfill d api). split; [done|].
      right. by rewrite Ht', Ht, <- app_assoc.
    + exists (Some UseCreateError), s1, d.
      split; [by eapply UpdateAPI_unmatched | by left].
Qed.

Lemma CreateAPI_sent c p s d :
  heap s !! p = Some d →
  ∃ id err s',
    CreateAPI c p s = Some ((id, err), s')
    ∧ ((trace s' = trace s ++ [Sent (listRequest c)] ∧ err ≠ None)
       ∨ trace s' = trace s ++ [Sent (listRequest c);
                                Sent (createRequest c d)]).
Proof.
  intros Hp.
  destruct (fetchAPIs_run c s) as ([err|apis] & s1 & Ef & Hh & Ht).
  - exists EmptyString, (Some err), s1. unfold CreateAPI, bind, ret.
    rewrite Ef. split; [done|]. by left.
  - destruct (Apis apis) as [|a rest] eqn:Hl.
    + destruct (CreateAPI_empty_listing _ _ _ _ _ _ Ef Hp Hl)
        as ([id err] & s' & E & _ & _ & Ht').
      exists id, err, s'. split; [done|].
      right. by rewrite Ht', Ht, <- app_assoc.
    + exists EmptyString, (Some UseUpdateError), s1. split; [|by left].
      eapply CreateAPI_nonempty_listing; [done | done |]. by rewrite Hl.
Qed.

(** What one pass of a loop body puts on the trace. *)
Lemma exec_shape c op s res s' :
  exec c op s = Some (res, s') →
  ∃ evs, trace s' = trace s ++ evs
    ∧ (∀ req, Sent req ∈ evs → fromClient c req)
    ∧ (method <$> writes evs) `sublist_of` [opMethod op]
    ∧ (res = None → method <$> writes evs = [opMethod op]).
Proof.
  destruct op as [dbId|elem|elem]; cbn [exec opMethod];
    unfold bind, Printf, emit.
  - match goal with
    | |- context [deleteAPI c dbId ?st] =>
        destruct (deleteAPI_run c dbId st) as (res0 & s0 & E & _ & Ht)
    end.
    rewrite E. intros [= <- <-]. rewrite Ht. cbn [trace].
    rewrite <- app_assoc. eexists. split; [reflexivity|]. cbn.
    split_and!; [|done..].
    intros req [[=]|[[= ->]|[]%elem_of_nil]%elem_of_cons]%elem_of_cons.
    apply fromClient_delete.
  - unfold new, load. cbn [heap]. rewrite lookup_insert_eq.
    match goal with
    | |- context [UpdateAPI c ?q ?st] =>
        destruct (UpdateAPI_sent c q st elem) as (res0 & s0 & d' & E & Hcase);
          [cbn [heap]; apply lookup_insert_eq|]
    end.
    rewrite E. intros [= <- <-].
    destruct Hcase as [[Ht Hne]|Ht]; rewrite Ht; cbn [trace];
      rewrite <- app_assoc; (eexists; split; [reflexivity|]); cbn.
    + split_and!; [| apply sublist_nil_l | done].
      intros req [[=]|[[= ->]|[]%elem_of_nil]%elem_of_cons]%elem_of_cons.
      apply fromClient_list.
    + split_and!; [|done..].
      intros req [[=]|[[= ->]|[[= ->]|[]%elem_of_nil]%elem_of_cons]
                        %elem_of_cons]%elem_of_cons.
      * apply fromClient_list.
      * apply fromClient_update.
  - unfold new, load. cbn [heap]. rewrite lookup_insert_eq.
    match goal with
    | |- context [CreateAPI c ?q ?st] =>
        destruct (CreateAPI_sent c q st elem) as (id & err & s0 & E & Hcase);
          [cbn [heap]; apply lookup_insert_eq|]
    end.
    rewrite E. destruct Hcase as [[Ht Hne]|Ht].
    + destruct err as [e|]; [|done]. unfold ret. intros [= <- <-].
      rewrite Ht. cbn [trace]. rewrite <- app_assoc.
      eexists; split; [reflexivity|]; cbn.
      split_and!; [| apply sublist_nil_l | done].
      intros req [[=]|[[= ->]|[]%elem_of_nil]%elem_of_cons]%elem_of_cons.
      apply fromClient_list.
    + destruct err as [e|]; unfold ret; intros [= <- <-]; cbn [trace];
        rewrite Ht; cbn [trace]; rewrite <- !app_assoc;
        (eexists; split; [reflexivity|]); cbn.
      * split_and!; [|done..].
        intros req [[=]|[[= ->]|[[= ->]|[]%elem_of_nil]%elem_of_cons]
                          %elem_of_cons]%elem_of_cons.
        -- apply fromClient_list.
        -- apply fromClient_create.
      * split_and!; [|done..].
        intros req [[=]|[[= ->]|[[= ->]|[[=]|[]%elem_of_nil]%elem_of_cons]
                          %elem_of_cons]%elem_of_cons]%elem_of_cons.
        -- apply fromClient_list.
        -- apply fromClient_create.
Qed.

Lemma writes_app evs1 evs2 : writes (evs1 ++ evs2) = writes evs1 ++ writes evs2.
Proof. apply omap_app. Qed.

Lemma Runs_shape c s ops res s' :
  Runs c s ops res s' →
  ∃ evs, trace s' = trace s ++ evs
    ∧ (∀ req, Sent req ∈ evs → fromClient c req)
    ∧ (method <$> writes evs) `sublist_of` (opMethod <$> ops)
    ∧ (res = None → method <$> writes evs = opMethod <$> ops).
Proof.
  induction 1 as [s|s op s1 ops r s' E _ IH|s op e s' ops E].
  - exists []. rewrite app_nil_r. split_and!; try done.
    intros req Hin. by apply elem_of_nil in Hin.
  - destruct (exec_shape _ _ _ _ _ E) as (evs1 & Ht1 & Hf1 & Hs1 & He1).
    destruct IH as (evs2 & Ht2 & Hf2 & Hs2 & He2).
    exists (evs1 ++ evs2). rewrite Ht2, Ht1, <- app_assoc.
    rewrite writes_app, fmap_app, fmap_cons.
    split_and!; [done | | |].
    + intros req [Hin|Hin]%elem_of_app; auto.
    + rewrite (He1 eq_refl). cbn. by apply sublist_skip.
    + intros Hr. by rewrite (He1 eq_refl), (He2 Hr).
  - destruct (exec_shape _ _ _ _ _ E) as (evs1 & Ht1 & Hf1 & Hs1 & _).
    exists evs1. split_and!; [done | done | | done].
    rewrite fmap_cons.
    change (opMethod op :: (opMethod <$> ops))
      with ([opMethod op] ++ (opMethod <$> ops)).
    rewrite <- (app_nil_r (method <$> writes evs1)).
    apply sublist_app; [done | apply sublist_nil_l].
Qed.

Lemma opMethod_operations (pl : Plan) :
  opMethod <$> operations pl
  = replicate (length (deleteAPIs pl)) DELETE
    ++ replicate (length (updateAPIs pl)) PUT
    ++ replicate (length (createAPIs pl)) POST.
Proof.
  unfold operations. rewrite !fmap_app, <- !list_fmap_compose.
  f_equal; [|f_equal].
  - induction (deleteAPIs pl); cbn; by f_equal.
  - induction (updateAPIs pl); cbn; by f_equal.
  - induction (createAPIs pl); cbn; by f_equal.
Qed.


(** X7.  On the wire the writes of one [Sync] are DELETEs, then PUTs, then
    POSTs, at most one for each planned operation; when [Sync] returns nil
    there is exactly one for each planned operation. *)
Theorem Sync_wire_order ou od oc c apiDefs s apis s1 :
  fetchAPIs c s = Some (inr apis, s1) →
  (∀ p, p ∈ apiDefs → is_Some (heap s !! p)) →
  ∃ defs pl res s' evs,
    loadAll apiDefs s1 = Some (defs, s1)
    ∧ plan ou od oc (Apis apis) defs = Some pl
    ∧ Sync ou od oc c apiDefs s = Some (res, s')
    ∧ trace s' = trace s1 ++ evs
    ∧ (method <$> writes evs) `sublist_of`
        (replicate (length (deleteAPIs pl)) DELETE
         ++ replicate (length (updateAPIs pl)) PUT
         ++ replicate (length (createAPIs pl)) POST)
    ∧ (res = None →
       method <$> writes evs
       = replicate (length (deleteAPIs pl)) DELETE
         ++ replicate (length (updateAPIs pl)) PUT
         ++ replicate (length (createAPIs pl)) POST).
Proof.
  intros Ef Hvalid. destruct (fetchAPIs_inv _ _ _ _ Ef) as [Hh _].
  destruct (loadAll_run apiDefs s1) as [defs Hl].
  { intros p Hp. rewrite Hh. by apply Hvalid. }
  destruct (plan_total ou od oc (Apis apis) defs) as [pl Hpl].
  destruct (applyPlan_Runs c pl s1) as (res & s' & Ea & Hr).
  destruct (Runs_shape _ _ _ _ _ Hr) as (evs & Ht & _ & Hsub & Heq).
  rewrite opMethod_operations in Hsub, Heq.
  exists defs, pl, res, s', evs. split_and!; try done.
  unfold Sync, bind. by rewrite Ef, Hl, Hpl.
Qed.

(** X8.  [NewDashboardClient] never fails, and every request that a [Sync]
    of the client it returns sends, the listing requests included, carries
    the secret as its one header and goes to the resource path under the
    client's URL, alone or followed by one identifier. *)
Theorem Sync_requests_from_client ou od oc (u k : string) c e apiDefs s :
  NewDashboardClient u k = (c, e) →
  (∀ p, p ∈ apiDefs → is_Some (heap s !! p)) →
  e = None
  ∧ ∃ res s' evs,
      Sync ou od oc c apiDefs s = Some (res, s')
      ∧ trace s' = trace s ++ evs
      ∧ ∀ req, Sent req ∈ evs →
          Headers (options req) = [("Authorization", k)]
          ∧ (target req = urljoin [u; endpointAPIs]
             ∨ ∃ id, target req = urljoin [u; endpointAPIs; id]).
Proof.
  intros [= <- <-] Hvalid. split; [done|].
  set (c := {| url := u; secret := k |}).
  destruct (fetchAPIs_run c s) as ([err|apis] & s1 & Ef & Hh & Ht).
  - exists (Some err), s1, [Sent (listRequest c)].
    unfold Sync, bind, ret. rewrite Ef. split_and!; [done | done |].
    intros req [[= ->]|[]%elem_of_nil]%elem_of_cons.
    apply (fromClient_list c).
  - destruct (loadAll_run apiDefs s1) as [defs Hl].
    { intros p Hp. rewrite Hh. by apply Hvalid. }
    destruct (plan_total ou od oc (Apis apis) defs) as [pl Hpl].
    destruct (applyPlan_Runs c pl s1) as (res & s' & Ea & Hr).
    destruct (Runs_shape _ _ _ _ _ Hr) as (evs & Ht' & Hfrom & _).
    exists res, s', (Sent (listRequest c) :: evs). split_and!.
    + unfold Sync, bind. by rewrite Ef, Hl, Hpl.
    + by rewrite Ht', Ht, <- app_assoc.
    + intros req [[= ->]|Hin]%elem_of_cons.
      * apply (fromClient_list c).
      * by apply (Hfrom req).
Qed.

(** X9.  While the dashboard lists any record, the create loop of [Sync]
    stops at its first definition: the listing is fetched, the uniqueness
    scan answers [UseUpdateError], no POST is sent and the remaining
    definitions are not attempted. *)
Theorem doCreates_refused_when_listed c elem rest s resp srv apis :
  serve (listRequest c) (remote s) = (inr resp, srv) →
  StatusCode resp = 200%Z →
  decodeAPIS (Body resp) = inr apis →
  Apis apis ≠ [] →
  ∃ s', doCreates c (elem :: rest) s = Some (Some UseUpdateError, s')
        ∧ remote s' = srv
        ∧ trace s'
          = trace s ++ [Printed "SYNC Creating: %v\n" [ArgString (Name elem)];
                        Sent (listRequest c)].
Proof.
  intros Es Hc Hd Hne. cbn [doCreates]. unfold bind, new, load. cbn [heap].
  rewrite lookup_insert_eq. unfold Printf, emit.
  match goal with
  | |- context [CreateAPI c ?q ?st] =>
      pose proof (fetchAPIs_ok c st resp srv apis Es Hc Hd) as Ef;
      rewrite (CreateAPI_nonempty_listing c q st elem apis _ Ef
                 (lookup_insert_eq _ _ _) Hne)
  end.
  unfold ret. eexists. split; [reflexivity|]. cbn [remote trace].
  by rewrite <- app_assoc.
Qed.

End Wire.

(** * Further properties of the plan *)

Lemma buildIDMap_fmap {A} (key : A → string) xs i (m : gmap string nat) :
  buildIDMap key xs i m = buildIDMap (λ k, k) (key <$> xs) i m.
Proof.
  revert i m. induction xs as [|x rest IH]; intros i m; [done|].
  cbn [buildIDMap fmap list_fmap]. apply IH.
Qed.

Lemma range_empty (o : RangeOrder) : range o ∅ = [].
Proof.
  apply Permutation_nil_r. by rewrite (range_perm o ∅), map_to_list_empty.
Qed.

Lemma omap_pickKey_NoDup keep (entries : list (string * nat)) :
  NoDup entries.*1 → NoDup (omap (pickKey keep) entries).
Proof.
  induction entries as [|[key index] rest IH]; cbn [fmap list_fmap fst].
  - intros _. constructor.
  - intros [Hfresh Hnd]%NoDup_cons. cbn [omap list_omap].
    unfold pickKey at 1. cbn [fst]. destruct (keep key); [|by apply IH].
    apply NoDup_cons. split; [|by apply IH].
    intros ([k i] & Hin & Hp)%list_elem_of_omap. apply Hfresh.
    unfold pickKey in Hp. cbn in Hp. destruct (keep k); [|done].
    injection Hp as ->. by apply (list_elem_of_fmap_2 fst) in Hin.
Qed.

(** The keys of the definitions a selecting loop appends are the keys it
    kept. *)
Lemma pick_keys apiDefs keep (entries : list (string * nat)) :
  (∀ e, e ∈ entries → GitIDMap apiDefs !! e.1 = Some e.2) →
  (λ def, Hex (Id def)) <$> omap (pick apiDefs keep) entries
  = omap (pickKey keep) entries.
Proof.
  induction entries as [|[key index] rest IH]; intros Hall; [done|].
  assert (Hrest : ∀ e, e ∈ rest → GitIDMap apiDefs !! e.1 = Some e.2).
  { intros e He. apply Hall. by right. }
  pose proof (Hall (key, index) ltac:(left)) as Hhead. cbn in Hhead.
  apply GitIDMap_lookup in Hhead as (d & [Hd _] & Hkey).
  cbn [omap list_omap]. unfold pick at 1, pickKey at 1. cbn [fst snd].
  destruct (keep key); [|by apply IH].
  rewrite Hd. cbn. by rewrite Hkey, IH.
Qed.

Lemma pickKey_split keep (entries : list (string * nat)) :
  length (omap (pickKey keep) entries)
  + length (omap (pickKey (λ key, negb (keep key))) entries)
  = length entries.
Proof.
  induction entries as [|[key index] rest IH]; [done|].
  unfold pickKey in *. cbn [omap list_omap fst].
  destruct (keep key); cbn [negb length]; lia.
Qed.

Lemma range_Git_entries (o : RangeOrder) apiDefs e :
  e ∈ range o (GitIDMap apiDefs) → GitIDMap apiDefs !! e.1 = Some e.2.
Proof. destruct e as [key index]. by rewrite range_lookup. Qed.

(** X10.  The plan reads nothing of the remote records but their Ids: two
    listings with the same Ids in the same order give the same plan,
    whatever their slugs, listen paths and API ids. *)
Theorem plan_reads_only_remote_Ids ou od oc apis1 apis2 apiDefs :
  (λ api, Id (APIDef api)) <$> apis1 = (λ api, Id (APIDef api)) <$> apis2 →
  plan ou od oc apis1 apiDefs = plan ou od oc apis2 apiDefs.
Proof.
  intros Hids.
  assert (DashIDMap apis1 = DashIDMap apis2) as Hdash.
  { unfold DashIDMap.
    rewrite (buildIDMap_fmap _ apis1), (buildIDMap_fmap _ apis2).
    f_equal.
    change (λ api, Hex (Id (APIDef api)))
      with (Hex ∘ (λ api, Id (APIDef api))).
    by rewrite !list_fmap_compose, Hids. }
  unfold plan. by rewrite Hdash.
Qed.

(** X11.  With an empty desired list the plan is to delete every remote
    identifier, each once, and to update and create nothing. *)
Theorem plan_of_empty_desired ou od oc apis :
  ∃ del,
    plan ou od oc apis []
    = Some {| deleteAPIs := del; updateAPIs := []; createAPIs := [] |}
    ∧ NoDup del
    ∧ ∀ key, key ∈ del ↔ ∃ api, api ∈ apis ∧ Hex (Id (APIDef api)) = key.
Proof.
  eexists. split; [|split].
  - rewrite plan_run. change (GitIDMap []) with (∅ : gmap string nat).
    by rewrite !range_empty.
  - apply omap_pickKey_NoDup, range_NoDup_keys.
  - intros key. rewrite elem_of_pickKey, <- present_true, present_Dash.
    unfold present. rewrite lookup_empty. cbn. tauto.
Qed.

(** X12.  With an empty remote listing the plan deletes and updates
    nothing; it creates, for each [Id] of the desired list, the last
    definition that carries it. *)
Theorem plan_of_empty_listing ou od oc apiDefs :
  ∃ cre,
    plan ou od oc [] apiDefs
    = Some {| deleteAPIs := []; updateAPIs := []; createAPIs := cre |}
    ∧ ∀ def, def ∈ cre ↔ ∃ n, last_with_Id apiDefs n def.
Proof.
  eexists. split.
  - rewrite plan_run. change (DashIDMap []) with (∅ : gmap string nat).
    rewrite range_empty. cbn [omap list_omap]. f_equal. f_equal.
    induction (range ou (GitIDMap apiDefs)) as [|[key index] rest IH];
      [done|].
    cbn [omap list_omap]. unfold pick at 1, present. cbn [fst].
    by rewrite lookup_empty.
  - intros def. rewrite elem_of_pick. unfold present.
    rewrite lookup_empty. cbn. tauto.
Qed.

(** X13.  No identifier is planned twice: the identifiers to delete are
    pairwise distinct even when the listing repeats one, the definitions to
    update and to create have pairwise distinct Ids, and there is exactly
    one of them for each key of the map of desired Ids. *)
Theorem plan_has_no_repeats ou od oc apis apiDefs :
  ∃ pl,
    plan ou od oc apis apiDefs = Some pl
    ∧ NoDup (deleteAPIs pl)
    ∧ NoDup (Id <$> (updateAPIs pl ++ createAPIs pl))
    ∧ length (updateAPIs pl) + length (createAPIs pl)
      = size (GitIDMap apiDefs).
Proof.
  eexists. split; [apply plan_run|].
  cbn [deleteAPIs updateAPIs createAPIs].
  set (dash := DashIDMap apis). set (git := GitIDMap apiDefs).
  assert (Hu : (λ def, Hex (Id def)) <$>
                 omap (pick apiDefs (present dash)) (range ou git)
               = omap (pickKey (present dash)) (range ou git)).
  { apply pick_keys. intros e. apply range_Git_entries. }
  assert (Hc : (λ def, Hex (Id def)) <$>
                 omap (pick apiDefs (λ key, negb (present dash key)))
                   (range oc git)
               = omap (pickKey (λ key, negb (present dash key)))
                   (range oc git)).
  { apply pick_keys. intros e. apply range_Git_entries. }
  split_and!.
  - apply omap_pickKey_NoDup, range_NoDup_keys.
  - apply (NoDup_fmap_1 Hex). rewrite <- list_fmap_compose.
    change (Hex ∘ Id) with (λ def, Hex (Id def)).
    rewrite fmap_app, Hu, Hc. apply NoDup_app. split_and!.
    + apply omap_pickKey_NoDup, range_NoDup_keys.
    + intros key [_ Hyes]%elem_of_pickKey [_ Hno]%elem_of_pickKey.
      rewrite Hyes in Hno. done.
    + apply omap_pickKey_NoDup, range_NoDup_keys.
  - rewrite <- (length_fmap (λ def, Hex (Id def))
                  (omap (pick apiDefs (present dash)) (range ou git))).
    rewrite <- (length_fmap (λ def, Hex (Id def))
                  (omap (pick apiDefs (λ key, negb (present dash key)))
                     (range oc git))).
    rewrite Hu, Hc, (range_perm ou git), (range_perm oc git).
    by rewrite pickKey_split, length_map_to_list.
Qed.

(** X14.  Every index kept in the two identifier maps is in range and
    points at an entry with the key's identifier, so the indexing
    [apiDefs[index]] of the selecting loops never panics and the plan is
    always computed. *)
Theorem plan_indices_in_range ou od oc apis apiDefs :
  is_Some (plan ou od oc apis apiDefs)
  ∧ (∀ key index, GitIDMap apiDefs !! key = Some index →
       index < length apiDefs
       ∧ ∃ def, apiDefs !! index = Some def ∧ Hex (Id def) = key)
  ∧ (∀ key index, DashIDMap apis !! key = Some index →
       index < length apis
       ∧ ∃ api, apis !! index = Some api ∧ Hex (Id (APIDef api)) = key).
Proof.
  split_and!.
  - rewrite plan_run. by eexists.
  - intros key index (def & Hl & Hk & _)%buildIDMap_last.
    split; [by eapply lookup_lt_Some | eauto].
  - intros key index (api & Hl & Hk & _)%buildIDMap_last.
    split; [by eapply lookup_lt_Some | eauto].
Qed.

(** * The further properties at work on the example dashboards *)

Lemma failed_listing_aborts_witness :
  CreateAPI (H := dashDown) client0 0 (start (H := dashDown) tt [defA])
  = Some ((EmptyString,
           Some (Errorf "API Returned error: %v" [ArgString "{}"])),
          answered (H := dashDown) (start (H := dashDown) tt [defA])
            (listRequest (H := dashDown) client0) tt)
  ∧ UpdateAPI (H := dashDown) client0 0 (start (H := dashDown) tt [defA])
    = Some (Some (Errorf "API Returned error: %v" [ArgString "{}"]),
            answered (H := dashDown) (start (H := dashDown) tt [defA])
              (listRequest (H := dashDown) client0) tt)
  ∧ Sync (H := dashDown) rangeSorted rangeSorted rangeSorted client0 [0]
      (start (H := dashDown) tt [defA])
    = Some (Some (Errorf "API Returned error: %v" [ArgString "{}"]),
            answered (H := dashDown) (start (H := dashDown) tt [defA])
              (listRequest (H := dashDown) client0) tt).
Proof.
  apply (failed_listing_aborts (H := dashDown) rangeSorted rangeSorted
           rangeSorted client0 0 [0] (start (H := dashDown) tt [defA])
           (inr {| StatusCode := 500; Body := "{}" |}) tt).
  - reflexivity.
  - right. left. eexists. split_and!; [reflexivity | discriminate | reflexivity].
Defined.

Lemma CreateAPI_outcome_witness :
  ∃ r id err s',
    serve (Collaborators := dashEmpty)
      (createRequest (H := dashEmpty) client0 defA) tt = (r, tt)
    ∧ CreateAPI (H := dashEmpty) client0 0 (start (H := dashEmpty) tt [defA])
      = Some ((id, err), s')
    ∧ heap s' = heap (start (H := dashEmpty) tt [defA])
    ∧ remote s' = tt
    ∧ trace s' = trace (listed (H := dashEmpty) tt [defA])
                 ++ [Sent (createRequest (H := dashEmpty) client0 defA)]
    ∧ (err = None ↔
       ∃ resp status, r = inr resp ∧ StatusCode resp = 200%Z
                      ∧ decodeStatus (Collaborators := dashEmpty) (Body resp)
                        = inr status
                      ∧ Status status = "OK" ∧ id = Meta status)
    ∧ (err ≠ None → id = EmptyString)
    ∧ (∀ resp, r = inr resp → StatusCode resp ≠ 200%Z →
         err = Some (Errorf "API Returned error: %v (code: %v)"
                       [ArgString (Body resp); ArgInt (StatusCode resp)])).
Proof.
  eexists. 
  destruct (CreateAPI_outcome (H := dashEmpty) client0 0
              (start (H := dashEmpty) tt [defA]) defA listingEmpty
              (listed (H := dashEmpty) tt [defA]) _ tt
              eq_refl eq_refl eq_refl eq_refl) as (id & err & s' & Hrest).
  exists id, err, s'. split; [reflexivity | exact Hrest].
Defined.

Lemma UpdateAPI_outcome_witness :
  ∃ r err s',
    serve (Collaborators := dashA)
      (updateRequest (H := dashA) client0 (backfill defA_renamed recordA)) tt
    = (r, tt)
    ∧ UpdateAPI (H := dashA) client0 0 (start (H := dashA) tt [defA_renamed])
      = Some (err, s')
    ∧ heap s' = <[0 := backfill defA_renamed recordA]>
                  (heap (start (H := dashA) tt [defA_renamed]))
    ∧ remote s' = tt
    ∧ trace s' = trace (listed (H := dashA) tt [defA_renamed])
                 ++ [Sent (updateRequest (H := dashA) client0
                             (backfill defA_renamed recordA))]
    ∧ (err = None ↔
       ∃ resp status, r = inr resp ∧ StatusCode resp = 200%Z
                      ∧ decodeStatus (Collaborators := dashA) (Body resp)
                        = inr status
                      ∧ Status status = "OK")
    ∧ (∀ msg, r = inl msg → err = Some (ExternalError msg))
    ∧ (∀ resp, r = inr resp → StatusCode resp ≠ 200%Z →
         err = Some (Errorf "API Returned error: %v"
                       [ArgString (Body resp)]))
    ∧ (∀ resp msg, r = inr resp → StatusCode resp = 200%Z →
         decodeStatus (Collaborators := dashA) (Body resp) = inl msg →
         err = Some (ExternalError msg)).
Proof.
  eexists.
  destruct (UpdateAPI_outcome (H := dashA) client0 0
              (start (H := dashA) tt [defA_renamed]) defA_renamed listingA
              (listed (H := dashA) tt [defA_renamed]) recordA _ tt
              eq_refl eq_refl eq_refl eq_refl) as (err & s' & Hrest).
  exists err, s'. split; [reflexivity | exact Hrest].
Defined.

Lemma deleteAPI_outcome_witness :
  ∃ r err s',
    serve (Collaborators := dashDown)
      (deleteRequest (H := dashDown) client0 "61") tt = (r, tt)
    ∧ deleteAPI (H := dashDown) client0 "61" (start (H := dashDown) tt [])
      = Some (err, s')
    ∧ heap s' = heap (start (H := dashDown) tt [])
    ∧ remote s' = tt
    ∧ trace s' = trace (start (H := dashDown) tt [])
                 ++ [Sent (deleteRequest (H := dashDown) client0 "61")]
    ∧ target (deleteRequest (H := dashDown) client0 "61")
      = urljoin (Collaborators := dashDown) [url client0; endpointAPIs; "61"]
    ∧ (err = None ↔ ∃ resp, r = inr resp ∧ StatusCode resp = 200%Z)
    ∧ (∀ msg, r = inl msg → err = Some (ExternalError msg))
    ∧ (∀ resp, r = inr resp → StatusCode resp ≠ 200%Z →
         err = Some (Errorf "API Returned error: %v"
                       [ArgString (Body resp)])).
Proof.
  eexists.
  destruct (deleteAPI_outcome (H := dashDown) client0 "61"
              (start (H := dashDown) tt []) _ tt eq_refl)
    as (err & s' & Hrest).
  exists err, s'. split; [reflexivity | exact Hrest].
Defined.

Lemma UpdateAPI_touches_only_APIID_witness :
  ∃ res s' d',
    UpdateAPI (H := dashA) client0 0 (start (H := dashA) tt [defA_renamed; defB])
    = Some (res, s')
    ∧ heap s' !! 0 = Some d'
    ∧ (∀ q, q ≠ 0 →
         heap s' !! q
         = heap (start (H := dashA) tt [defA_renamed; defB]) !! q)
    ∧ Id d' = Id defA_renamed ∧ Name d' = Name defA_renamed
    ∧ Slug d' = Slug defA_renamed
    ∧ Proxy d' = Proxy defA_renamed
    ∧ (APIID defA_renamed ≠ EmptyString → d' = defA_renamed)
    ∧ (res = Some UseCreateError → d' = defA_renamed).
Proof.
  apply (UpdateAPI_touches_only_APIID (H := dashA) client0 0
           (start (H := dashA) tt [defA_renamed; defB]) defA_renamed).
  reflexivity.
Defined.

Lemma CreateAPI_reads_only_witness :
  ∃ res s' evs,
    CreateAPI (H := dashEmpty) client0 0 (start (H := dashEmpty) tt [defA])
    = Some (res, s')
    ∧ heap s' = heap (start (H := dashEmpty) tt [defA])
    ∧ trace s' = trace (start (H := dashEmpty) tt [defA]) ++ evs
    ∧ (writes evs = []
       ∨ writes evs = [createRequest (H := dashEmpty) client0 defA])
    ∧ (snd res = Some UseUpdateError → writes evs = []).
Proof.
  apply (CreateAPI_reads_only (H := dashEmpty) client0 0
           (start (H := dashEmpty) tt [defA]) defA).
  reflexivity.
Defined.

Lemma Sync_wire_order_witness :
  ∃ defs pl res s' evs,
    loadAll (H := dashAC) [0; 1] (listed (H := dashAC) tt [defA_renamed; defB])
    = Some (defs, listed (H := dashAC) tt [defA_renamed; defB])
    ∧ plan rangeSorted rangeSorted rangeSorted (Apis listingAC) defs = Some pl
    ∧ Sync (H := dashAC) rangeSorted rangeSorted rangeSorted client0 [0; 1]
        (start (H := dashAC) tt [defA_renamed; defB])
      = Some (res, s')
    ∧ trace s' = trace (listed (H := dashAC) tt [defA_renamed; defB]) ++ evs
    ∧ (method <$> writes evs) `sublist_of`
        (replicate (length (deleteAPIs pl)) DELETE
         ++ replicate (length (updateAPIs pl)) PUT
         ++ replicate (length (createAPIs pl)) POST)
    ∧ (res = None →
       method <$> writes evs
       = replicate (length (deleteAPIs pl)) DELETE
         ++ replicate (length (updateAPIs pl)) PUT
         ++ replicate (length (createAPIs pl)) POST).
Proof.
  apply (Sync_wire_order (H := dashAC) rangeSorted rangeSorted rangeSorted
           client0 [0; 1] (start (H := dashAC) tt [defA_renamed; defB])
           listingAC).
  - reflexivity.
  - apply valid_two_cells.
Defined.

Lemma Sync_requests_from_client_witness :
  @None error = None
  ∧ ∃ res s' evs,
      Sync (H := dashAC) rangeSorted rangeSorted rangeSorted client0 [0; 1]
        (start (H := dashAC) tt [defA_renamed; defB])
      = Some (res, s')
      ∧ trace s' = trace (start (H := dashAC) tt [defA_renamed; defB]) ++ evs
      ∧ ∀ req, Sent req ∈ evs →
          Headers (options req) = [("Authorization", "s3cret")]
          ∧ (target req
             = urljoin (Collaborators := dashAC) ["http://dash"; endpointAPIs]
             ∨ ∃ id, target req
                     = urljoin (Collaborators := dashAC)
                         ["http://dash"; endpointAPIs; id]).
Proof.
  apply (Sync_requests_from_client (H := dashAC) rangeSorted rangeSorted
           rangeSorted "http://dash" "s3cret" client0 None [0; 1]
           (start (H := dashAC) tt [defA_renamed; defB])).
  - reflexivity.
  - apply valid_two_cells.
Defined.

Lemma doCreates_refused_when_listed_witness :
  ∃ s', doCreates (H := dashAC) client0 [defB; defA] (start (H := dashAC) tt [])
        = Some (Some UseUpdateError, s')
        ∧ remote s' = tt
        ∧ trace s'
          = trace (start (H := dashAC) tt [])
            ++ [Printed "SYNC Creating: %v\n" [ArgString (Name defB)];
                Sent (listRequest (H := dashAC) client0)].
Proof.
  eapply (doCreates_refused_when_listed (H := dashAC) client0 defB [defA]
            (start (H := dashAC) tt []) _ tt listingAC).
  - reflexivity.
  - reflexivity.
  - reflexivity.
  - discriminate.
Defined.

Lemma plan_reads_only_remote_Ids_witness :
  plan rangeSorted rangeSorted rangeSorted [recordA] [defA_renamed; defB]
  = plan rangeSorted rangeSorted rangeSorted [recordA_other]
      [defA_renamed; defB].
Proof.
  apply (plan_reads_only_remote_Ids rangeSorted rangeSorted rangeSorted
           [recordA] [recordA_other] [defA_renamed; defB]).
  reflexivity.
Defined.
